(** * HEIC to JPEG batch conversion (src/heic_utils.py)

    A shallow embedding of the module: the size-targeted quality search
    ([_encode_with_target_size]), the backup, conversion and deletion steps
    and the batch orchestrator ([convert_heic_batch]).  Calls into Pillow,
    pillow_heif, pathlib and shutil are the fields of a [Platform]; Python
    exceptions are values of [exn] carried by an error monad. *)

From Stdlib Require Import ZArith List Ascii String Bool Lia.
From Stdlib Require Import Orders Sorted Permutation Mergesort.
From Stdlib.Strings Require Import Byte.
From Equations Require Import Equations.
Import ListNotations.

Open Scope string_scope.
Open Scope list_scope.
Open Scope Z_scope.

(** ** Python values *)

(** [bytes] objects and [len]. *)
Definition bytes := list byte.

Definition len (data : bytes) : Z := Z.of_nat (List.length data).

(** Exceptions: the class decides which [except] clause catches the value,
    [exn_str] is what [str(exc)] gives.  The classes of the first line derive
    from [Exception]; those of the second derive from [BaseException] only,
    and [except Exception] lets them through. *)
Inductive exn_class :=
| ImportError | RuntimeError | OSError | ValueError | OtherException
| KeyboardInterrupt | SystemExit | OtherBaseException.

Record exn := Exception { exn_type : exn_class; exn_str : string }.

Definition result (A : Type) : Type := (exn + A)%type.

Definition is_ImportError (exc : exn) : bool :=
  match exn_type exc with ImportError => true | _ => false end.

(** [isinstance(exc, Exception)]. *)
Definition is_Exception (exc : exn) : bool :=
  match exn_type exc with
  | KeyboardInterrupt | SystemExit | OtherBaseException => false
  | _ => true
  end.

Definition raised {A} (r : result A) : bool :=
  match r with inl _ => true | inr _ => false end.

(** The error monad of code that touches no state. *)
Module Res.
Definition ret {A} (a : A) : result A := inr a.
Definition raise {A} (exc : exn) : result A := inl exc.
Definition bind {A B} (m : result A) (k : A -> result B) : result B :=
  match m with inl exc => inl exc | inr a => k a end.
End Res.

Declare Scope res_scope.
Delimit Scope res_scope with res.
Notation "x <- m ;; k" := (Res.bind m (fun x => k))
  (at level 61, m at next level, right associativity) : res_scope.
Notation "' pat <- m ;; k" := (Res.bind m (fun x => match x with pat => k end))
  (at level 61, pat pattern, m at next level, right associativity) : res_scope.

(** ** Module constants *)

Definition TARGET_MIN_BYTES : Z := 1000000.
Definition TARGET_MAX_BYTES : Z := 2000000.
Definition QUALITY_MIN : Z := 40.
Definition QUALITY_MAX : Z := 95.
Definition SUBSAMPLING : Z := 2.

(** [range(start, stop)]. *)
Definition range (start stop : Z) : list Z :=
  map (fun i => start + Z.of_nat i) (seq 0 (Z.to_nat (stop - start))).

(** ** Quality search *)

Section QualitySearch.

(** A decoded picture and [image.save(buffer, format="JPEG", quality=...,
    subsampling=..., optimize=...)] followed by [buffer.getvalue()]:
    in-memory, so a function of its arguments, and it may raise. *)
Variable Image : Type.
Variable save_jpeg : Image -> Z -> Z -> bool -> result bytes.

Definition _encode_jpeg (image : Image) (quality : Z) : result bytes :=
  save_jpeg image quality SUBSAMPLING true.

(** The [while low <= high] loop; [best] is [(size, quality, data)]. *)
Equations? bisect (image : Image) (low high : Z) (best : option (Z * Z * bytes))
  : result (option (Z * Z * bytes)) by wf (Z.to_nat (high - low + 1)) lt :=
  bisect image low high best with Z_le_gt_dec low high := {
    | right _ := inr best
    | left _ with _encode_jpeg image ((low + high) / 2) := {
      | inl exc := inl exc
      | inr data with Z_gt_le_dec (len data) TARGET_MAX_BYTES := {
        | left _ := bisect image low ((low + high) / 2 - 1) best
        | right _ :=
            bisect image ((low + high) / 2 + 1) high
                   (Some (len data, (low + high) / 2, data)) } } }.
Proof.
  all: assert (low <= (low + high) / 2 <= high)
    by (split; [apply Z.div_le_lower_bound | apply Z.div_le_upper_bound]; lia);
    lia.
Qed.

(** The [for quality in range(...)] loop.  The loop variable is the
    function's own [quality]: it is rebound at the start of every
    iteration, before the [break] test, and keeps its last binding when
    the loop is left.  Returns [(data, size, quality)]. *)
Fixpoint refine (image : Image) (qualities : list Z)
         (data : bytes) (size quality : Z) : result (bytes * Z * Z) :=
  match qualities with
  | [] => inr (data, size, quality)
  | q :: rest =>
      match _encode_jpeg image q with
      | inl exc => inl exc
      | inr candidate =>
          let candidate_size := len candidate in
          if candidate_size >? TARGET_MAX_BYTES
          then inr (data, size, q)
          else refine image rest candidate candidate_size q
      end
  end.

Definition _encode_with_target_size (image : Image) : result (bytes * Z) :=
  (best <- bisect image QUALITY_MIN QUALITY_MAX None ;;
   match best with
   | None =>
       let quality := QUALITY_MIN in
       data <- _encode_jpeg image quality ;;
       Res.ret (data, quality)
   | Some (size, quality, data) =>
       if (size <? TARGET_MIN_BYTES) && (quality <? QUALITY_MAX)
       then
         '(data, size, quality) <-
            refine image (range (quality + 1) (QUALITY_MAX + 1)) data size quality ;;
         Res.ret (data, quality)
       else Res.ret (data, quality)
   end)%res.

(** The size of the encoding at a quality, when the encoder returns. *)
Definition encoded_size (image : Image) (q : Z) : option Z :=
  match _encode_jpeg image q with
  | inr data => Some (len data)
  | inl _ => None
  end.

(** A candidate the search holds was encoded at its quality and fits. *)
Definition accepted (image : Image) (low high : Z) (c : Z * Z * bytes) : Prop :=
  let '(size, quality, data) := c in
  low <= quality <= high /\
  _encode_jpeg image quality = inr data /\
  size = len data /\ size <= TARGET_MAX_BYTES.

(** The size does not decrease as quality grows; the encoder returns at
    every quality of the range; every quality above [q] is oversize. *)
Definition monotone (image : Image) : Prop :=
  forall q1 q2 s1 s2,
    QUALITY_MIN <= q1 -> q1 <= q2 -> q2 <= QUALITY_MAX ->
    encoded_size image q1 = Some s1 -> encoded_size image q2 = Some s2 ->
    s1 <= s2.

Definition encodable (image : Image) : Prop :=
  forall q, QUALITY_MIN <= q <= QUALITY_MAX -> encoded_size image q <> None.

Definition oversize_above (image : Image) (q : Z) : Prop :=
  forall q' s, q < q' <= QUALITY_MAX -> encoded_size image q' = Some s ->
               TARGET_MAX_BYTES < s.

End QualitySearch.

Arguments _encode_jpeg {Image} save_jpeg image quality.
Arguments bisect {Image} save_jpeg image low high best.
Arguments refine {Image} save_jpeg image qualities data size quality.
Arguments _encode_with_target_size {Image} save_jpeg image.
Arguments encoded_size {Image} save_jpeg image q.
Arguments accepted {Image} save_jpeg image low high c.
Arguments monotone {Image} save_jpeg image.
Arguments encodable {Image} save_jpeg image.
Arguments oversize_above {Image} save_jpeg image q.

(** ** The platform

    What the module calls and does not define.  An operation that can touch
    the file system, the interpreter or the screen is a function of the
    [World]; each may raise.  [path_exists] is [Path.exists()]: it reads the
    world, and raises where [stat] fails for another reason than a missing
    file. *)
Class Platform := {
  World : Type;
  Path : Type;
  Image : Type;
  (* pathlib *)
  Path_ : string -> Path;                          (* Path(p) *)
  str : Path -> string;                            (* str(path) *)
  truediv : Path -> string -> Path;                (* path / name *)
  name : Path -> string;                           (* path.name *)
  with_suffix : Path -> string -> result Path;     (* path.with_suffix(s) *)
  path_exists : Path -> World -> result bool;      (* path.exists() *)
  mkdir : Path -> World -> result unit * World;    (* parents=True, exist_ok=True *)
  write_bytes : Path -> bytes -> World -> result unit * World;
  unlink : Path -> World -> result unit * World;
  (* shutil *)
  copy2 : Path -> Path -> World -> result unit * World;
  (* PIL *)
  Image_open : Path -> World -> result Image * World;
  convert_RGB : Image -> World -> result Image * World;   (* image.convert("RGB") *)
  save_jpeg : Image -> Z -> Z -> bool -> result bytes;
  (* pillow_heif *)
  import_pillow_heif : World -> result unit * World;
  register_heif_opener : World -> result unit * World;
}.

Record ConversionResult := {
  source : string;
  target : string;
  quality : Z;
  size_bytes : Z;
}.

Section Batch.

Context {P : Platform}.

(** The calls the module makes into the platform and into the progress
    callback, in the order it makes them. *)
Inductive Call :=
| call_import_pillow_heif
| call_register_heif_opener
| call_mkdir (p : Path)
| call_exists (p : Path)
| call_copy2 (src dst : Path)
| call_Image_open (p : Path)
| call_convert_RGB
| call_write_bytes (p : Path)
| call_unlink (p : Path)
| call_progress (done total : Z).

(** The module global, the world, the record of calls made so far, and the
    variables [converted], [errors] and [done] of the running
    [convert_heic_batch]. *)
Record State := {
  _HEIF_REGISTERED : bool;
  world : World;
  calls : list Call;
  converted : list ConversionResult;
  errors : list (string * string);
  done : Z;
}.

Definition set_HEIF_REGISTERED (b : bool) (st : State) : State :=
  {| _HEIF_REGISTERED := b; world := world st; calls := calls st;
     converted := converted st; errors := errors st; done := done st |}.
Definition set_world (w : World) (st : State) : State :=
  {| _HEIF_REGISTERED := _HEIF_REGISTERED st; world := w; calls := calls st;
     converted := converted st; errors := errors st; done := done st |}.
Definition log (c : Call) (st : State) : State :=
  {| _HEIF_REGISTERED := _HEIF_REGISTERED st; world := world st;
     calls := calls st ++ [c];
     converted := converted st; errors := errors st; done := done st |}.
Definition set_converted (l : list ConversionResult) (st : State) : State :=
  {| _HEIF_REGISTERED := _HEIF_REGISTERED st; world := world st; calls := calls st;
     converted := l; errors := errors st; done := done st |}.
Definition set_errors (l : list (string * string)) (st : State) : State :=
  {| _HEIF_REGISTERED := _HEIF_REGISTERED st; world := world st; calls := calls st;
     converted := converted st; errors := l; done := done st |}.
Definition set_done (n : Z) (st : State) : State :=
  {| _HEIF_REGISTERED := _HEIF_REGISTERED st; world := world st; calls := calls st;
     converted := converted st; errors := errors st; done := n |}.

(** *** State and exceptions *)

Definition M (A : Type) : Type := State -> result A * State.

Definition ret {A} (a : A) : M A := fun st => (inr a, st).
Definition raise {A} (exc : exn) : M A := fun st => (inl exc, st).
Definition bind {A B} (m : M A) (k : A -> M B) : M B :=
  fun st => match m st with
            | (inl exc, st') => (inl exc, st')
            | (inr a, st') => k a st'
            end.
Definition get {A} (f : State -> A) : M A := fun st => (inr (f st), st).
Definition modify (f : State -> State) : M unit := fun st => (inr tt, f st).
Definition lift {A} (r : result A) : M A := fun st => (r, st).

(** [try: body  except C as exc: handler exc], where [catches] tells the
    instances of [C]; the handler runs in the state the body left, and an
    exception of another class goes on. *)
Definition try_except_when {A} (catches : exn -> bool) (body : M A)
           (handler : exn -> M A) : M A :=
  fun st => match body st with
            | (inl exc, st') => if catches exc then handler exc st' else (inl exc, st')
            | (inr a, st') => (inr a, st')
            end.

(** [try: body  except Exception as exc: handler exc]. *)
Definition try_except {A} (body : M A) (handler : exn -> M A) : M A :=
  try_except_when is_Exception body handler.

(** [try: body  finally: final]. *)
Definition try_finally {A} (body : M A) (final : M unit) : M A :=
  fun st => match body st with
            | (r, st') =>
                match final st' with
                | (inl exc, st'') => (inl exc, st'')
                | (inr _, st'') => (r, st'')
                end
            end.

(** A call into the platform: recorded, then run on the world. *)
Definition call {A} (c : Call) (op : World -> result A * World) : M A :=
  fun st => match op (world st) with
            | (r, w') => (r, set_world w' (log c st))
            end.

(** A call that reads the world and may raise. *)
Definition query {A} (c : Call) (q : World -> result A) : M A :=
  fun st => (q (world st), log c st).

(** The same when it is not a call of the module's own: the truth test of
    an object. *)
Definition read {A} (q : World -> result A) : M A :=
  fun st => (q (world st), st).

Fixpoint for_each {A} (l : list A) (body : A -> M unit) : M unit :=
  match l with
  | [] => ret tt
  | x :: rest => bind (body x) (fun _ => for_each rest body)
  end.

End Batch.

Declare Scope m_scope.
Delimit Scope m_scope with M.
Notation "x <- m ;; k" := (bind m (fun x => k))
  (at level 61, m at next level, right associativity) : m_scope.
Notation "' pat <- m ;; k" := (bind m (fun x => match x with pat => k end))
  (at level 61, pat pattern, m at next level, right associativity) : m_scope.
Notation "m ;; k" := (bind m (fun _ => k))
  (at level 61, right associativity) : m_scope.

Section HeicUtils.

Context {P : Platform}.
Open Scope m_scope.

Definition missing_pillow_heif : string :=
  "Brak zależności pillow-heif. Aby przekonwertować pliki HEIC, zainstaluj pakiet:"
  ++ String "010"%char "    pip install pillow-heif".

Definition cleanup_failed : string :=
  "Przekonwertowano, ale nie udało się usunąć oryginału: ".

Definition _ensure_heif_registered : M unit :=
  registered <- get _HEIF_REGISTERED ;;
  if registered then ret tt
  else
    try_except_when is_ImportError
                    (call call_import_pillow_heif import_pillow_heif)
                    (fun exc => raise (Exception RuntimeError missing_pillow_heif)) ;;
    call call_register_heif_opener register_heif_opener ;;
    modify (set_HEIF_REGISTERED true).

Definition _copy_to_backup (src backup_dir : Path) : M unit :=
  let dst := truediv backup_dir (name src) in
  dst_exists <- query (call_exists dst) (path_exists dst) ;;
  if dst_exists then ret tt
  else call (call_copy2 src dst) (copy2 src dst).

(** The image is closed when the [with] block is left; closing is not
    modelled. *)
Definition _convert_single (src : Path) : M (Path * Z * Z) :=
  target <- lift (with_suffix src ".jpg") ;;
  image <- call (call_Image_open src) (Image_open src) ;;
  rgb_image <- call call_convert_RGB (convert_RGB image) ;;
  '(data, quality) <- lift (_encode_with_target_size save_jpeg rgb_image) ;;
  call (call_write_bytes target) (write_bytes target data) ;;
  ret (target, quality, len data).

Definition _remove_source_file (src : Path) : M unit :=
  src_exists <- query (call_exists src) (path_exists src) ;;
  if src_exists then call (call_unlink src) (unlink src) else ret tt.

(** The object passed as [progress_callback]: its truth test, which
    [if progress_callback:] makes (its [__bool__] or [__len__], if it has
    one, may answer false and may raise), and what calling it does. *)
Record progress_sink := {
  truthy : World -> result bool;
  invoke : Z -> Z -> World -> result unit * World;
}.

(** The inner [try] of the loop: lines 85-88. *)
Definition remove_step (src : Path) : M unit :=
  try_except (_remove_source_file src)
             (fun exc =>
                modify (fun st =>
                  set_errors (errors st ++ [(str src, (cleanup_failed ++ exn_str exc)%string)]) st)).

(** The body of the outer [try]: lines 81-88. *)
Definition convert_step (remove_source : bool) (backup_dir src : Path) : M unit :=
  _copy_to_backup src backup_dir ;;
  '(target, quality, size) <- _convert_single src ;;
  modify (fun st =>
    set_converted
      (converted st ++ [Build_ConversionResult (str src) (str target) quality size]) st) ;;
  if remove_source then remove_step src else ret tt.

(** The [finally] block: lines 92-97. *)
Definition report_done (total : Z) (progress_callback : option progress_sink) : M unit :=
  modify (fun st => set_done (done st + 1) st) ;;
  match progress_callback with
  | Some callback =>
      is_true <- read (truthy callback) ;;
      if is_true then
        done <- get done ;;
        try_except (call (call_progress done total) (invoke callback done total))
                   (fun _ => ret tt)
      else ret tt
  | None => ret tt
  end.

(** The outer [try] with its [except] clause: lines 80-90. *)
Definition guarded_step (remove_source : bool) (backup_dir src : Path) : M unit :=
  try_except (convert_step remove_source backup_dir src)
             (fun exc =>
                modify (fun st => set_errors (errors st ++ [(str src, exn_str exc)]) st)).

(** One iteration of [for src in heic_paths]: lines 80-97. *)
Definition process_path (remove_source : bool) (backup_dir : Path) (total : Z)
           (progress_callback : option progress_sink) (src : Path) : M unit :=
  try_finally (guarded_step remove_source backup_dir src)
              (report_done total progress_callback).

Definition convert_heic_batch (paths : list string) (working_dir : string)
           (backup_folder_name : string) (remove_source : bool)
           (progress_callback : option progress_sink)
  : M (list ConversionResult * list (string * string)) :=
  let heic_paths := map Path_ paths in
  match heic_paths with
  | [] => ret ([], [])
  | _ :: _ =>
      _ensure_heif_registered ;;
      let workdir_path := Path_ working_dir in
      let backup_dir := truediv workdir_path backup_folder_name in
      call (call_mkdir backup_dir) (mkdir backup_dir) ;;
      modify (set_converted []) ;;
      modify (set_errors []) ;;
      let total := Z.of_nat (List.length heic_paths) in
      modify (set_done 0) ;;
      for_each heic_paths
               (process_path remove_source backup_dir total progress_callback) ;;
      converted <- get converted ;;
      errors <- get errors ;;
      ret (converted, errors)
  end.

End HeicUtils.

(** A picture whose encoding at quality [q] is [sizes q] zero bytes. *)
Definition blob (n : Z) : bytes := repeat x00 (Z.to_nat n).

Definition table_save (sizes : Z -> Z) (q : Z) (_ : Z) (_ : bool) : result bytes :=
  inr (blob (sizes q)).

Definition step_sizes (q : Z) : Z := if q <=? 60 then 500000 else 3000000.

Definition flat_sizes (q : Z) : Z := 3000000.

Definition linear_sizes (q : Z) : Z := 30000 * q.

Definition tiny_sizes (q : Z) : Z := q.

(** ** Observations on the record of calls *)

Section Observations.

Context {P : Platform}.

Definition is_progress (c : Call) : bool :=
  match c with call_progress _ _ => true | _ => false end.

(** The calls made to the progress callback, oldest first. *)
Definition progress_calls (cs : list Call) : list Call := filter is_progress cs.

(** What the [finally] block, run in the world [w], adds to the record. *)
Definition progress_log (progress_callback : option progress_sink) (w : World)
           (done total : Z) : list Call :=
  match progress_callback with
  | Some callback =>
      match truthy callback w with
      | inr true => [call_progress done total]
      | _ => []
      end
  | None => []
  end.

(** [exc] is what the truth test of the callback raises in some world. *)
Definition truth_test_raises (progress_callback : option progress_sink) (exc : exn)
  : Prop :=
  match progress_callback with
  | Some callback => exists w, truthy callback w = inl exc
  | None => False
  end.

(** The setup of a batch that has at least one path: lines 67-71. *)
Definition batch_setup (working_dir backup_folder_name : string) : M unit :=
  (_ensure_heif_registered ;;
   let backup_dir := truediv (Path_ working_dir) backup_folder_name in
   call (call_mkdir backup_dir) (mkdir backup_dir))%M.

(** Lines 81-82 of an iteration: backup, then conversion. *)
Definition backup_and_convert (backup_dir src : Path) : M (Path * Z * Z) :=
  (_copy_to_backup src backup_dir ;; _convert_single src)%M.

(** What [_remove_source_file] gives after a conversion, when it is run. *)
Definition deletion (remove_source : bool) (src : Path) (w : World) : result unit :=
  if remove_source then
    match path_exists src w with
    | inl exc => inl exc
    | inr true => fst (unlink src w)
    | inr false => inr tt
    end
  else inr tt.

(** What one iteration, started in [st], has left in [st'].  When the backup
    or the conversion raised: no result; one error with the message of the
    exception if it is an [Exception]; and after the step that raised no
    call but the one to the progress callback.  When both returned: one
    result, and with it an error exactly when the deletion was run and
    raised an [Exception]. *)
Definition iteration_outcome (remove_source : bool) (backup_dir : Path) (total : Z)
           (progress_callback : option progress_sink) (src : Path)
           (st st' : State) : Prop :=
  match backup_and_convert backup_dir src st with
  | (inl exc, st1) =>
      converted st' = converted st /\
      errors st' =
      (if is_Exception exc then errors st ++ [(str src, exn_str exc)] else errors st) /\
      calls st' = calls st1 ++ progress_log progress_callback (world st1) (done st + 1) total
  | (inr (target, quality, size), st1) =>
      converted st' =
      converted st ++ [Build_ConversionResult (str src) (str target) quality size] /\
      match deletion remove_source src (world st1) with
      | inl exc =>
          errors st' =
          (if is_Exception exc
           then errors st ++ [(str src, (cleanup_failed ++ exn_str exc)%string)]
           else errors st)
      | inr _ => errors st' = errors st
      end
  end.

(** The results and the errors of a batch, read along its paths: a path
    gives one error, or one result, or one result and the error of the
    failed cleanup. *)
Inductive dispositions (remove_source : bool)
  : list Path -> list ConversionResult -> list (string * string) -> Prop :=
| dispositions_nil : dispositions remove_source [] [] []
| dispositions_failed src l cs es msg :
    dispositions remove_source l cs es ->
    dispositions remove_source (src :: l) cs ((str src, msg) :: es)
| dispositions_converted src l cs es target quality size :
    dispositions remove_source l cs es ->
    dispositions remove_source (src :: l)
                 (Build_ConversionResult (str src) target quality size :: cs) es
| dispositions_not_removed src l cs es target quality size msg :
    remove_source = true ->
    dispositions remove_source l cs es ->
    dispositions remove_source (src :: l)
                 (Build_ConversionResult (str src) target quality size :: cs)
                 ((str src, (cleanup_failed ++ msg)%string) :: es).

(** Relations between the state before and after a piece of code that
    say what the code left alone. *)
Class Frame (R : State -> State -> Prop) := {
  frame_refl : forall st, R st st;
  frame_trans : forall st1 st2 st3, R st1 st2 -> R st2 st3 -> R st1 st3;
  frame_world : forall st w, R st (set_world w st);
  frame_log : forall st c, is_progress c = false -> R st (log c st);
  frame_flag : forall st b, R st (set_HEIF_REGISTERED b st);
}.

(** The counter and the progress calls are as they were. *)
Definition quiet (st st' : State) : Prop :=
  done st' = done st /\ progress_calls (calls st') = progress_calls (calls st).

(** So are, besides, the two result lists. *)
Definition untouched (st st' : State) : Prop :=
  quiet st st' /\ converted st' = converted st /\ errors st' = errors st.

Definition preserving (R : State -> State -> Prop) {A} (m : M A) : Prop :=
  forall st, R st (snd (m st)).

End Observations.

(** ** A platform in memory

    Paths are strings with [/] as separator, a disk is a table of regular
    files and a list of directories, a picture is the content of its file
    and the encoder keeps [quality] percent of it. *)
Module Mem.

Record Disk := {
  files : list (string * bytes);
  dirs : list string;
  protected : list string;          (* files that may not be removed *)
  stat_fails : list string;         (* paths on which [stat] fails *)
  pillow_heif_installed : bool;
}.

Fixpoint lookup (p : string) (fs : list (string * bytes)) : option bytes :=
  match fs with
  | [] => None
  | (p', data) :: rest => if String.eqb p p' then Some data else lookup p rest
  end.

Definition remove (p : string) (fs : list (string * bytes)) : list (string * bytes) :=
  filter (fun entry => negb (String.eqb p (fst entry))) fs.

Definition is_file (p : string) (d : Disk) : bool :=
  match lookup p (files d) with Some _ => true | None => false end.

Definition is_dir (p : string) (d : Disk) : bool := existsb (String.eqb p) (dirs d).

Definition set_files (fs : list (string * bytes)) (d : Disk) : Disk :=
  {| files := fs; dirs := dirs d; protected := protected d;
     stat_fails := stat_fails d; pillow_heif_installed := pillow_heif_installed d |}.

Definition set_dirs (ds : list string) (d : Disk) : Disk :=
  {| files := files d; dirs := ds; protected := protected d;
     stat_fails := stat_fails d; pillow_heif_installed := pillow_heif_installed d |}.

Fixpoint has_char (c : Ascii.ascii) (s : string) : bool :=
  match s with
  | EmptyString => false
  | String c' rest => Ascii.eqb c c' || has_char c rest
  end.

(** The part after the last separator. *)
Fixpoint basename (s : string) : string :=
  match s with
  | EmptyString => EmptyString
  | String c rest =>
      if Ascii.eqb c "/"%char || has_char "/"%char rest then basename rest else s
  end.

(** The path without the extension of its last component. *)
Fixpoint stem (s : string) : string :=
  match s with
  | EmptyString => EmptyString
  | String c rest =>
      if Ascii.eqb c "."%char && negb (has_char "."%char rest) && negb (has_char "/"%char rest)
      then EmptyString
      else String c (stem rest)
  end.

Definition raises {A} (cls : exn_class) (msg : string) (d : Disk) : result A * Disk :=
  (inl (Exception cls msg), d).

(** [stat] and what asks it whether a path is there, is a directory or is
    a regular file. *)
Definition disk_stat (present : string -> Disk -> bool) (p : string) (d : Disk)
  : result bool :=
  if existsb (String.eqb p) (stat_fails d)
  then inl (Exception OSError ("Input/output error: " ++ p))
  else inr (present p d).

Definition disk_mkdir (p : string) (d : Disk) : result unit * Disk :=
  if is_file p d then raises OSError ("File exists: " ++ p) d
  else if is_dir p d then (inr tt, d)
  else (inr tt, set_dirs (p :: dirs d) d).

Definition disk_write_bytes (p : string) (data : bytes) (d : Disk) : result unit * Disk :=
  if is_dir p d then raises OSError ("Is a directory: " ++ p) d
  else (inr tt, set_files ((p, data) :: remove p (files d)) d).

Definition disk_unlink (p : string) (d : Disk) : result unit * Disk :=
  if is_file p d then
    if existsb (String.eqb p) (protected d)
    then raises OSError ("Permission denied: " ++ p) d
    else (inr tt, set_files (remove p (files d)) d)
  else raises OSError ("No such file or directory: " ++ p) d.

Definition disk_copy2 (src dst : string) (d : Disk) : result unit * Disk :=
  match lookup src (files d) with
  | Some data => disk_write_bytes dst data d
  | None => raises OSError ("No such file or directory: " ++ src) d
  end.

Definition disk_Image_open (p : string) (d : Disk) : result bytes * Disk :=
  match lookup p (files d) with
  | Some [] => raises OtherException ("cannot identify image file " ++ p) d
  | Some data => (inr data, d)
  | None => raises OSError ("No such file or directory: " ++ p) d
  end.

Definition disk_save_jpeg (image : bytes) (quality : Z) (_ : Z) (_ : bool) : result bytes :=
  inr (firstn (Z.to_nat (len image * quality / 100)) image).

Definition disk_import_pillow_heif (d : Disk) : result unit * Disk :=
  if pillow_heif_installed d then (inr tt, d)
  else raises ImportError "No module named 'pillow_heif'" d.

#[export] Instance platform : Platform := {|
  World := Disk;
  Path := string;
  Image := bytes;
  Path_ := fun p => p;
  str := fun p => p;
  truediv := fun dir name => (dir ++ "/" ++ name)%string;
  name := basename;
  with_suffix := fun p suffix =>
    if String.eqb (basename p) "" then inl (Exception ValueError "empty name")
    else inr (stem p ++ suffix)%string;
  path_exists := disk_stat (fun p d => is_file p d || is_dir p d);
  mkdir := disk_mkdir;
  write_bytes := disk_write_bytes;
  unlink := disk_unlink;
  copy2 := disk_copy2;
  Image_open := disk_Image_open;
  convert_RGB := fun image d => (inr image, d);
  save_jpeg := disk_save_jpeg;
  import_pillow_heif := disk_import_pillow_heif;
  register_heif_opener := fun d => (inr tt, d);
|}.

(** A process that has not yet run a batch. *)
Definition fresh (d : Disk) : State :=
  {| _HEIF_REGISTERED := false; world := d; calls := [];
     converted := []; errors := []; done := 0 |}.

Definition picture : bytes := [x01; x02; x03; x04; x05; x06; x07; x08; x09; x0a].

(** Two pictures and one empty file in [work]. *)
Definition disk_ok : Disk :=
  {| files := [("work/a.heic", picture); ("work/b.heic", []); ("work/c.heic", picture)];
     dirs := ["work"]; protected := ["work/c.heic"]; stat_fails := [];
     pillow_heif_installed := true |}.

(** The same without pillow_heif. *)
Definition disk_no_heif : Disk :=
  {| files := files disk_ok; dirs := dirs disk_ok; protected := []; stat_fails := [];
     pillow_heif_installed := false |}.

(** A regular file sits where the backup directory should go. *)
Definition disk_blocked : Disk :=
  {| files := ("work/kopia heic", picture) :: files disk_ok; dirs := dirs disk_ok;
     protected := []; stat_fails := []; pillow_heif_installed := true |}.

(** [stat] fails on the first picture. *)
Definition disk_stat_fails : Disk :=
  {| files := files disk_ok; dirs := dirs disk_ok; protected := [];
     stat_fails := ["work/a.heic"]; pillow_heif_installed := true |}.

Definition quiet_sink : progress_sink :=
  {| truthy := fun _ => inr true; invoke := fun _ _ d => (inr tt, d) |}.

Definition failing_sink : progress_sink :=
  {| truthy := fun _ => inr true;
     invoke := fun _ _ d => (inl (Exception OtherException "progress bar is gone"), d) |}.

(** A callable whose truth value is false, as an object with a [__len__]
    of zero has. *)
Definition falsy_sink : progress_sink :=
  {| truthy := fun _ => inr false; invoke := fun _ _ d => (inr tt, d) |}.

(** A callback that is interrupted from the keyboard. *)
Definition interrupted_sink : progress_sink :=
  {| truthy := fun _ => inr true;
     invoke := fun _ _ d => (inl (Exception KeyboardInterrupt EmptyString), d) |}.

(** A callable whose truth test raises. *)
Definition untestable_sink : progress_sink :=
  {| truthy := fun _ => inl (Exception ValueError "truth value is ambiguous");
     invoke := fun _ _ d => (inr tt, d) |}.

End Mem.

(** ** More on the quality search *)

(** Where the bytes of a pair [(data, quality)] come from: the encoding at
    [quality], or the encoding one quality below when the one at [quality]
    was rejected as oversize. *)
Definition provenance {Image : Type} (save : Image -> Z -> Z -> bool -> result bytes)
           (image : Image) (data : bytes) (quality : Z) : Prop :=
  _encode_jpeg save image quality = inr data \/
  (_encode_jpeg save image (quality - 1) = inr data /\
   exists rejected, _encode_jpeg save image quality = inr rejected /\
                    TARGET_MAX_BYTES < len rejected).

(** An encoder that raises at every quality. *)
Definition broken_save (_ : unit) (_ : Z) (_ : Z) (_ : bool) : result bytes :=
  inl (Exception OtherException "encoder error").

(** ** Candidate discovery

    [list_heic_to_convert] and what it calls besides the [Platform]:
    [Path.is_dir()] and [Path.is_file()], which read the world and raise
    where [Path.exists()] does; [Path.iterdir()], which lists the directory
    when the loop starts and may raise; [Path.suffix] and [str.lower()]. *)
Class Listing {P : Platform} := {
  Path_is_dir : Path -> World -> result bool;
  Path_is_file : Path -> World -> result bool;
  Path_iterdir : Path -> World -> result (list Path) * World;
  Path_suffix : Path -> string;
  str_lower : string -> string;
}.

Definition HEIC_EXTS : list string := [".heic"; ".heif"].

(** [list.sort()] on strings: ascending in the order of their characters. *)
Module StringOrder <: Orders.TotalLeBool.
Definition t := string.
Definition leb := String.leb.
Definition leb_total : forall a1 a2, leb a1 a2 = true \/ leb a2 a1 = true :=
  String.leb_total.
End StringOrder.

Module StringSort := Mergesort.Sort StringOrder.

Section Discovery.

Context {P : Platform} {L : Listing}.

Definition is_heic (entry : Path) : bool :=
  existsb (String.eqb (str_lower (Path_suffix entry))) HEIC_EXTS.

(** [jpg_candidate.exists() or jpeg_candidate.exists()]: the second test is
    made only when the first one returned false. *)
Definition either_exists (jpg_candidate jpeg_candidate : Path) (w : World) : result bool :=
  match path_exists jpg_candidate w with
  | inl exc => inl exc
  | inr true => inr true
  | inr false => path_exists jpeg_candidate w
  end.

(** The body of [for entry in dir_path.iterdir()], over the entries left;
    [results] is the list built so far. *)
Fixpoint scan_entries (entries : list Path) (w : World) (results : list string)
  : result (list string) :=
  match entries with
  | [] => inr results
  | entry :: rest =>
      match Path_is_file entry w with
      | inl exc => inl exc
      | inr false => scan_entries rest w results
      | inr true =>
          if negb (is_heic entry) then scan_entries rest w results
          else
            match with_suffix entry ".jpg" with
            | inl exc => inl exc
            | inr jpg_candidate =>
                match with_suffix entry ".jpeg" with
                | inl exc => inl exc
                | inr jpeg_candidate =>
                    match either_exists jpg_candidate jpeg_candidate w with
                    | inl exc => inl exc
                    | inr true => scan_entries rest w results
                    | inr false => scan_entries rest w (results ++ [str entry])
                    end
                end
            end
      end
  end.

Definition list_heic_to_convert (directory : string) (w : World)
  : result (list string) * World :=
  let dir_path := Path_ directory in
  match Path_is_dir dir_path w with
  | inl exc => (inl exc, w)
  | inr false => (inr [], w)
  | inr true =>
      match Path_iterdir dir_path w with
      | (inl exc, w') => (inl exc, w')
      | (inr entries, w') =>
          match scan_entries entries w' [] with
          | inl exc => (inl exc, w')
          | inr results => (inr (StringSort.sort results), w')
          end
      end
  end.

(** An entry the scan keeps: a regular file with a HEIC suffix whose [.jpg]
    and [.jpeg] siblings do not exist. *)
Definition unconverted (w : World) (entry : Path) : bool :=
  match Path_is_file entry w with
  | inr true =>
      is_heic entry &&
      match with_suffix entry ".jpg", with_suffix entry ".jpeg" with
      | inr jpg_candidate, inr jpeg_candidate =>
          match either_exists jpg_candidate jpeg_candidate w with
          | inr false => true
          | _ => false
          end
      | _, _ => false
      end
  | _ => false
  end.

(** What an entry can raise in the scan: the test for a regular file; for
    a regular file with a HEIC suffix, the making of a candidate or the
    existence test of a candidate, the second candidate being tested only
    when the first one does not exist. *)
Definition entry_raises (w : World) (entry : Path) (exc : exn) : Prop :=
  Path_is_file entry w = inl exc \/
  Path_is_file entry w = inr true /\ is_heic entry = true /\
  (with_suffix entry ".jpg" = inl exc \/
   with_suffix entry ".jpeg" = inl exc \/
   exists jpg_candidate jpeg_candidate,
     with_suffix entry ".jpg" = inr jpg_candidate /\
     with_suffix entry ".jpeg" = inr jpeg_candidate /\
     (path_exists jpg_candidate w = inl exc \/
      path_exists jpg_candidate w = inr false /\ path_exists jpeg_candidate w = inl exc)).

End Discovery.

(** ** More observations on a batch *)

Section MoreObservations.

Context {P : Platform}.

Definition is_unlink (c : Call) : bool :=
  match c with call_unlink _ => true | _ => false end.

Definition is_write (c : Call) : bool :=
  match c with call_write_bytes _ => true | _ => false end.

Definition is_registration (c : Call) : bool :=
  match c with
  | call_import_pillow_heif | call_register_heif_opener => true
  | _ => false
  end.

(** A piece of code that leaves an observation of the state as it was. *)
Definition keeps {X} (f : State -> X) {A} (m : M A) : Prop :=
  forall st, f (snd (m st)) = f st.

(** The callback that does to the world what [callback] does and returns
    wherever [callback] raises an [Exception]. *)
Definition swallow (callback : progress_sink) : progress_sink :=
  {| truthy := truthy callback;
     invoke := fun done total w =>
       match invoke callback done total w with
       | (inl exc, w') => if is_Exception exc then (inr tt, w') else (inl exc, w')
       | (inr u, w') => (inr u, w')
       end |}.

(** What holds of every result a batch returns. *)
Definition well_formed_result (r : ConversionResult) : Prop :=
  QUALITY_MIN <= quality r <= QUALITY_MAX /\
  0 <= size_bytes r /\
  (size_bytes r <= TARGET_MAX_BYTES \/ quality r = QUALITY_MIN).

End MoreObservations.

(** [l1] is [l2] with some elements left out. *)
Inductive subseq {A} : list A -> list A -> Prop :=
| subseq_nil : subseq [] []
| subseq_skip x l1 l2 : subseq l1 l2 -> subseq l1 (x :: l2)
| subseq_keep x l1 l2 : subseq l1 l2 -> subseq (x :: l1) (x :: l2).

(** ** Directories of the platform in memory *)
Module MemDir.

Import Mem.

(** The part before the last separator. *)
Fixpoint parent (s : string) : string :=
  match s with
  | EmptyString => EmptyString
  | String c rest => if has_char "/"%char rest then String c (parent rest) else EmptyString
  end.

(** From the last dot on, when there is one. *)
Fixpoint from_last_dot (s : string) : string :=
  match s with
  | EmptyString => EmptyString
  | String c rest =>
      if has_char "."%char rest then from_last_dot rest
      else if Ascii.eqb c "."%char then s else EmptyString
  end.

(** [Path.suffix]: a dot that starts or ends the name starts no suffix. *)
Definition extension (p : string) : string :=
  match basename p with
  | EmptyString => EmptyString
  | String _ rest =>
      let e := from_last_dot rest in
      if String.eqb e "." then EmptyString else e
  end.

Definition lower_char (c : ascii) : ascii :=
  let n := nat_of_ascii c in
  if (65 <=? n)%nat && (n <=? 90)%nat then ascii_of_nat (n + 32) else c.

Fixpoint lower (s : string) : string :=
  match s with
  | EmptyString => EmptyString
  | String c rest => String (lower_char c) (lower rest)
  end.

Definition disk_iterdir (p : string) (d : Disk) : result (list string) * Disk :=
  if is_dir p d
  then (inr (filter (fun q => String.eqb (parent q) p) (map fst (files d) ++ dirs d)), d)
  else raises OSError ("Not a directory: " ++ p) d.

#[export] Instance listing : Listing := {|
  Path_is_dir := disk_stat is_dir;
  Path_is_file := disk_stat is_file;
  Path_iterdir := disk_iterdir;
  Path_suffix := extension;
  str_lower := lower;
|}.

(** The same platform when no directory can be read. *)
Definition unreadable : Listing := {|
  Path_is_dir := disk_stat is_dir;
  Path_is_file := disk_stat is_file;
  Path_iterdir := fun p d => raises OSError ("Permission denied: " ++ p) d;
  Path_suffix := extension;
  str_lower := lower;
|}.

(** A directory with a converted picture, two pictures to convert, a text
    file and a subdirectory. *)
Definition disk_mixed : Disk :=
  {| files := [("work/z.HEIC", picture); ("work/a.jpg", picture);
               ("work/a.heic", picture); ("work/notes.txt", picture);
               ("work/b.heif", picture)];
     dirs := ["work"; "work/old.heic"]; protected := []; stat_fails := [];
     pillow_heif_installed := true |}.

End MemDir.

Section SearchFacts.
Context {Image : Type} (save : Image -> Z -> Z -> bool -> result bytes).

Lemma bisect_eq image low high best :
  bisect save image low high best =
  if low <=? high then
    match _encode_jpeg save image ((low + high) / 2) with
    | inl exc => inl exc
    | inr data =>
        if len data >? TARGET_MAX_BYTES
        then bisect save image low ((low + high) / 2 - 1) best
        else bisect save image ((low + high) / 2 + 1) high
                    (Some (len data, (low + high) / 2, data))
    end
  else inr best.
Proof.
  simp bisect.
  destruct (Z_le_gt_dec low high) as [Hle | Hgt]; cbn.
  - replace (low <=? high) with true by (symmetry; apply Z.leb_le; lia).
    destruct (_encode_jpeg save image ((low + high) / 2)) as [exc | data]; cbn.
    + reflexivity.
    + destruct (Z_gt_le_dec (len data) TARGET_MAX_BYTES) as [Hbig | Hfit]; cbn.
      * replace (len data >? TARGET_MAX_BYTES) with true
          by (symmetry; apply Z.gtb_lt; lia).
        now simp bisect.
      * replace (len data >? TARGET_MAX_BYTES) with false
          by (symmetry; rewrite Z.gtb_ltb; apply Z.ltb_ge; lia).
        now simp bisect.
  - replace (low <=? high) with false by (symmetry; apply Z.leb_gt; lia).
    reflexivity.
Qed.

Lemma bisect_over image low high best data :
  low <= high ->
  _encode_jpeg save image ((low + high) / 2) = inr data ->
  TARGET_MAX_BYTES < len data ->
  bisect save image low high best =
  bisect save image low ((low + high) / 2 - 1) best.
Proof.
  intros Hle Henc Hbig. rewrite bisect_eq, Henc.
  apply Z.leb_le in Hle. apply Z.gtb_lt in Hbig. now rewrite Hle, Hbig.
Qed.

Lemma bisect_fits image low high best data :
  low <= high ->
  _encode_jpeg save image ((low + high) / 2) = inr data ->
  len data <= TARGET_MAX_BYTES ->
  bisect save image low high best =
  bisect save image ((low + high) / 2 + 1) high
         (Some (len data, (low + high) / 2, data)).
Proof.
  intros Hle Henc Hfit. rewrite bisect_eq, Henc.
  apply Z.leb_le in Hle. rewrite Hle.
  replace (len data >? TARGET_MAX_BYTES) with false; [reflexivity |].
  symmetry. rewrite Z.gtb_ltb. now apply Z.ltb_ge.
Qed.

Lemma bisect_exit image low high best :
  high < low -> bisect save image low high best = inr best.
Proof.
  intros Hgt. rewrite bisect_eq. apply Z.leb_gt in Hgt. now rewrite Hgt.
Qed.

Lemma midpoint_bounds low high :
  low <= high -> low <= (low + high) / 2 <= high.
Proof.
  intros H. split; [apply Z.div_le_lower_bound | apply Z.div_le_upper_bound]; lia.
Qed.

Lemma bisect_accepted image n : forall low high best r,
  (Z.to_nat (high - low + 1) <= n)%nat ->
  bisect save image low high best = inr r ->
  r = best \/ exists c, r = Some c /\ accepted save image low high c.
Proof.
  induction n as [| n IH]; intros low high best r Hn Hr.
  - rewrite bisect_exit in Hr by lia. left. congruence.
  - destruct (Z_lt_le_dec high low) as [Hgt | Hle].
    + rewrite bisect_exit in Hr by lia. left. congruence.
    + pose proof (midpoint_bounds low high Hle) as Hmid.
      destruct (_encode_jpeg save image ((low + high) / 2)) as [exc | data] eqn:Henc.
      * rewrite bisect_eq, Henc in Hr.
        apply Z.leb_le in Hle. rewrite Hle in Hr. discriminate.
      * destruct (Z_lt_le_dec TARGET_MAX_BYTES (len data)) as [Hbig | Hfit].
        -- rewrite (bisect_over _ _ _ _ _ Hle Henc Hbig) in Hr.
           apply IH in Hr; [| lia].
           destruct Hr as [-> | (c & -> & Hc)]; [now left | right].
           exists c. split; [reflexivity |].
           destruct c as [[size quality] d]. unfold accepted in *. intuition lia.
        -- rewrite (bisect_fits _ _ _ _ _ Hle Henc Hfit) in Hr.
           apply IH in Hr; [| lia].
           right. destruct Hr as [-> | (c & -> & Hc)].
           ++ eexists. split; [reflexivity |]. unfold accepted. intuition lia.
           ++ exists c. split; [reflexivity |].
              destruct c as [[size quality] d]. unfold accepted in *. intuition lia.
Qed.

Lemma refine_fits image : forall qualities data size quality data' size' quality',
  len data <= TARGET_MAX_BYTES ->
  refine save image qualities data size quality = inr (data', size', quality') ->
  len data' <= TARGET_MAX_BYTES.
Proof.
  induction qualities as [| q rest IH]; intros data size quality data' size' quality' Hfit Hr;
    cbn in Hr.
  - congruence.
  - destruct (_encode_jpeg save image q) as [exc | candidate]; [discriminate |].
    destruct (len candidate >? TARGET_MAX_BYTES) eqn:Hbig.
    + congruence.
    + apply IH in Hr; [assumption |].
      rewrite Z.gtb_ltb in Hbig. now apply Z.ltb_ge in Hbig.
Qed.


Lemma encoded_size_inr image q data :
  _encode_jpeg save image q = inr data -> encoded_size save image q = Some (len data).
Proof. unfold encoded_size. now intros ->. Qed.

Lemma bisect_monotone image (Hmono : monotone save image) (Henc : encodable save image) n :
  forall low high best,
    (Z.to_nat (high - low + 1) <= n)%nat ->
    QUALITY_MIN <= low -> high <= QUALITY_MAX -> low <= high + 1 ->
    oversize_above save image high ->
    (low = QUALITY_MIN /\ best = None \/
     exists c, best = Some c /\ accepted save image (low - 1) (low - 1) c /\
               QUALITY_MIN <= low - 1) ->
    exists r, bisect save image low high best = inr r /\
      (r = None /\ oversize_above save image (QUALITY_MIN - 1) \/
       exists size quality data,
         r = Some (size, quality, data) /\
         accepted save image QUALITY_MIN QUALITY_MAX (size, quality, data) /\
         oversize_above save image quality).
Proof.
  induction n as [| n IH]; intros low high best Hn Hlo Hhi Hlh Hover Hbest.
  1: assert (high < low) by lia.
  2: destruct (Z_lt_le_dec high low) as [H | Hle].
  1, 2: rewrite bisect_exit by lia; eexists; split; [reflexivity |];
    assert (high = low - 1) as -> by lia;
    destruct Hbest as [[-> ->] | (c & -> & Hc & Hq)];
    [ left; split; [reflexivity | assumption]
    | right; destruct c as [[size quality] data]; exists size, quality, data;
      split; [reflexivity |]; cbn in Hc;
      assert (quality = low - 1) as -> by lia;
      split; [cbn; intuition lia | assumption] ].
  pose proof (midpoint_bounds low high Hle) as Hmid.
  destruct (_encode_jpeg save image ((low + high) / 2)) as [exc | data] eqn:E.
  { exfalso. apply (Henc ((low + high) / 2)); [lia |].
    unfold encoded_size. now rewrite E. }
  destruct (Z_lt_le_dec TARGET_MAX_BYTES (len data)) as [Hbig | Hfit].
  - rewrite (bisect_over _ _ _ _ _ Hle E Hbig).
    apply IH; try lia; [| destruct Hbest as [? | (c & ? & ? & ?)]; eauto].
    intros q' s Hq' Hs.
    pose proof (Hmono ((low + high) / 2) q' (len data) s ltac:(lia) ltac:(lia) ltac:(lia)
                      (encoded_size_inr _ _ _ E) Hs).
    lia.
  - rewrite (bisect_fits _ _ _ _ _ Hle E Hfit).
    apply IH; try lia; [assumption |].
    right. eexists. split; [reflexivity |].
    replace ((low + high) / 2 + 1 - 1) with ((low + high) / 2) by lia.
    cbn. intuition lia.
Qed.

End SearchFacts.

(** C1.  When the encoded size of a picture never decreases as quality
    grows over 40..95 (and the encoder returns at each of these qualities),
    and some quality in 40..95 gives a size within 1,000,000..2,000,000
    bytes, [_encode_with_target_size] returns bytes whose length is within
    1,000,000..2,000,000. *)
Theorem encode_with_target_size_hits_window
  {Image : Type} (save : Image -> Z -> Z -> bool -> result bytes) (image : Image)
  (Hmono : monotone save image) (Henc : encodable save image)
  (Hwin : exists q s, QUALITY_MIN <= q <= QUALITY_MAX /\
                      encoded_size save image q = Some s /\
                      TARGET_MIN_BYTES <= s <= TARGET_MAX_BYTES) :
  exists data quality,
    _encode_with_target_size save image = inr (data, quality) /\
    TARGET_MIN_BYTES <= len data <= TARGET_MAX_BYTES.
Proof.
  destruct Hwin as (q0 & s0 & Hq0 & Hs0 & Hwin).
  destruct (bisect_monotone save image Hmono Henc _ QUALITY_MIN QUALITY_MAX None
              (le_n _)) as (r & Hr & Hspec).
  1-3: unfold QUALITY_MIN, QUALITY_MAX; lia.
  { intros q' s Hq'. lia. }
  { left. split; reflexivity. }
  unfold _encode_with_target_size. rewrite Hr. cbn.
  destruct Hspec as [[-> Hover] | (size & quality & data & -> & Hacc & Hover)].
  - specialize (Hover q0 s0 ltac:(lia) Hs0). lia.
  - destruct Hacc as (Hq & Hdata & -> & Hfit).
    assert (TARGET_MIN_BYTES <= len data) as Hmin.
    { destruct (Z_lt_le_dec quality q0) as [Hlt | Hge].
      - specialize (Hover q0 s0 ltac:(lia) Hs0). lia.
      - pose proof (Hmono q0 quality s0 (len data) ltac:(lia) ltac:(lia) ltac:(lia)
                          Hs0 (encoded_size_inr _ _ _ _ Hdata)).
        lia. }
    replace (len data <? TARGET_MIN_BYTES) with false
      by (symmetry; apply Z.ltb_ge; assumption).
    cbn. exists data, quality. split; [reflexivity | lia].
Qed.


(** *** Pictures given by their size at each quality *)

Lemma len_blob n : 0 <= n -> len (blob n) = n.
Proof.
  intros Hn. unfold len, blob. rewrite repeat_length. now apply Z2Nat.id.
Qed.

Lemma table_encode sizes q : _encode_jpeg table_save sizes q = inr (blob (sizes q)).
Proof. reflexivity. Qed.

Lemma encoded_size_table sizes q :
  0 <= sizes q -> encoded_size table_save sizes q = Some (sizes q).
Proof.
  intros Hq. unfold encoded_size. rewrite table_encode. now rewrite len_blob.
Qed.

Lemma bisect_table_over sizes low high best mid high' :
  low <= high -> (low + high) / 2 = mid -> mid - 1 = high' ->
  TARGET_MAX_BYTES < sizes mid ->
  bisect table_save sizes low high best = bisect table_save sizes low high' best.
Proof.
  intros Hle <- <- Hbig. apply (bisect_over _ _ _ _ _ _ Hle (table_encode _ _)).
  rewrite len_blob; unfold TARGET_MAX_BYTES in *; lia.
Qed.

Lemma bisect_table_fits sizes low high best mid low' size :
  low <= high -> (low + high) / 2 = mid -> mid + 1 = low' ->
  sizes mid = size -> 0 <= size <= TARGET_MAX_BYTES ->
  bisect table_save sizes low high best =
  bisect table_save sizes low' high (Some (size, mid, blob size)).
Proof.
  intros Hle <- <- <- Hfit.
  rewrite (bisect_fits _ _ _ _ _ _ Hle (table_encode _ _)).
  - now rewrite len_blob by lia.
  - rewrite len_blob; lia.
Qed.

Lemma refine_table_break sizes q rest data size quality :
  TARGET_MAX_BYTES < sizes q ->
  refine table_save sizes (q :: rest) data size quality = inr (data, size, q).
Proof.
  intros Hbig. cbn [refine]. rewrite table_encode. cbv zeta.
  rewrite len_blob by (unfold TARGET_MAX_BYTES in *; lia).
  apply Z.gtb_lt in Hbig. now rewrite Hbig.
Qed.

(** Closed comparisons between integer literals. *)
Ltac zcmp :=
  repeat split; vm_compute; solve [reflexivity | discriminate].

(** One probe of the binary search on a size table, named by its
    midpoint and the bound it moves. *)
Ltac probe_over mid high' :=
  match goal with
  | |- context [bisect table_save ?s ?lo ?hi ?b] =>
      rewrite (bisect_table_over s lo hi b mid high') by zcmp
  end.
Ltac probe_fits mid low' size :=
  match goal with
  | |- context [bisect table_save ?s ?lo ?hi ?b] =>
      rewrite (bisect_table_fits s lo hi b mid low' size) by zcmp
  end.
Ltac probe_exit :=
  match goal with
  | |- context [bisect table_save ?s ?lo ?hi ?b] =>
      rewrite (bisect_exit table_save s lo hi b) by zcmp
  end.

(** The probes on [step_sizes]: 67 (over), 53 and 60 (fit), 63 and 61
    (over); the refinement then encodes at 61 and breaks. *)
Lemma step_sizes_search :
  _encode_with_target_size table_save step_sizes = inr (blob 500000, 61).
Proof.
  unfold _encode_with_target_size, QUALITY_MIN, QUALITY_MAX.
  probe_over 67 66. probe_fits 53 54 500000. probe_fits 60 61 500000.
  probe_over 63 62. probe_over 61 60. probe_exit.
  cbn [Res.bind].
  change (500000 <? TARGET_MIN_BYTES) with true.
  change (60 <? 95) with true.
  cbn [andb].
  change (range (60 + 1) (95 + 1)) with (61 :: range 62 96).
  rewrite (refine_table_break step_sizes 61 (range 62 96) (blob 500000) 500000 60)
    by zcmp.
  reflexivity.
Qed.

(** The probes on [flat_sizes]: 67, 53, 46, 42 and 40, all over. *)
Lemma flat_sizes_search :
  _encode_with_target_size table_save flat_sizes = inr (blob 3000000, 40).
Proof.
  unfold _encode_with_target_size, QUALITY_MIN, QUALITY_MAX.
  probe_over 67 66. probe_over 53 52. probe_over 46 45.
  probe_over 42 41. probe_over 40 39. probe_exit.
  reflexivity.
Qed.

Lemma linear_sizes_monotone : monotone table_save linear_sizes.
Proof.
  intros q1 q2 s1 s2 Hq1 Hle Hq2 H1 H2. unfold QUALITY_MIN in Hq1.
  rewrite encoded_size_table in H1, H2 by (unfold linear_sizes; lia).
  injection H1 as <-. injection H2 as <-. unfold linear_sizes. lia.
Qed.

Lemma linear_sizes_encodable : encodable table_save linear_sizes.
Proof.
  intros q Hq. unfold QUALITY_MIN in Hq.
  rewrite encoded_size_table by (unfold linear_sizes; lia). discriminate.
Qed.

Lemma linear_sizes_window :
  exists q s, QUALITY_MIN <= q <= QUALITY_MAX /\
              encoded_size table_save linear_sizes q = Some s /\
              TARGET_MIN_BYTES <= s <= TARGET_MAX_BYTES.
Proof.
  exists 40, 1200000. split; [zcmp |]. split; [| zcmp].
  apply (encoded_size_table linear_sizes 40). zcmp.
Qed.

Lemma encode_with_target_size_hits_window_witness :
  exists data quality,
    _encode_with_target_size table_save linear_sizes = inr (data, quality) /\
    TARGET_MIN_BYTES <= len data <= TARGET_MAX_BYTES.
Proof.
  apply (encode_with_target_size_hits_window table_save linear_sizes).
  - exact linear_sizes_monotone.
  - exact linear_sizes_encodable.
  - exact linear_sizes_window.
Defined.

(** C2.  On a picture of 500,000 bytes up to quality 60 and 3,000,000
    bytes above it, [_encode_with_target_size] returns the bytes encoded at
    quality 60 together with the quality 61, the one the refinement loop
    rejected as oversize: the bytes returned are not the encoding at the
    quality returned. *)
Theorem refinement_break_returns_rejected_quality :
  exists data quality,
    _encode_with_target_size table_save step_sizes = inr (data, quality) /\
    _encode_jpeg table_save step_sizes 60 = inr data /\
    quality = 61 /\
    TARGET_MAX_BYTES < len (blob (step_sizes quality)) /\
    _encode_jpeg table_save step_sizes quality <> inr data.
Proof.
  exists (blob 500000), 61. split; [exact step_sizes_search |].
  split; [reflexivity |]. split; [reflexivity |].
  change (step_sizes 61) with 3000000.
  split; [rewrite len_blob by lia; zcmp |].
  rewrite table_encode. change (step_sizes 61) with 3000000.
  intros H.
  assert (len (blob 3000000) = len (blob 500000)) as E
    by exact (f_equal (fun r => match r with inr d => len d | inl _ => 0 end) H).
  rewrite !len_blob in E by lia. discriminate E.
Qed.

(** C3, as stated, fails: on a picture of 3,000,000 bytes at every quality
    the search returns 3,000,000 bytes, more than [TARGET_MAX_BYTES], at
    quality 40, which is not [QUALITY_MAX]. *)
Lemma encode_with_target_size_oversize_at_quality_min :
  exists data quality,
    _encode_with_target_size table_save flat_sizes = inr (data, quality) /\
    ~ (len data <= TARGET_MAX_BYTES \/ quality = QUALITY_MAX).
Proof.
  exists (blob 3000000), 40. split; [exact flat_sizes_search |].
  rewrite len_blob by lia. intros [H | H]; [apply H; reflexivity | discriminate H].
Qed.

(** C3, amended.  The bytes [_encode_with_target_size] returns are at most
    [TARGET_MAX_BYTES] long, or else the returned quality is
    [QUALITY_MIN]. *)
Theorem encode_with_target_size_fits_or_quality_min
  {Image : Type} (save : Image -> Z -> Z -> bool -> result bytes) (image : Image)
  (data : bytes) (quality : Z) :
  _encode_with_target_size save image = inr (data, quality) ->
  len data <= TARGET_MAX_BYTES \/ quality = QUALITY_MIN.
Proof.
  unfold _encode_with_target_size. intros H.
  destruct (bisect save image QUALITY_MIN QUALITY_MAX None) as [exc | best] eqn:Hb;
    [discriminate |].
  cbn [Res.bind] in H.
  destruct best as [[[size q] d] |].
  - left.
    apply (bisect_accepted save image _ _ _ _ _ (le_n _)) in Hb.
    destruct Hb as [Hb | (c & Hc & Hacc)]; [discriminate |].
    injection Hc as <-. destruct Hacc as (_ & _ & -> & Hfit).
    destruct ((len d <? TARGET_MIN_BYTES) && (q <? QUALITY_MAX)).
    + destruct (refine save image _ d (len d) q) as [exc | [[d' s'] q']] eqn:Hr;
        [discriminate |].
      cbn in H. injection H as <- <-.
      apply (refine_fits save image _ _ _ _ _ _ _ Hfit Hr).
    + injection H as <- <-. assumption.
  - right. destruct (_encode_jpeg save image QUALITY_MIN); [discriminate |].
    cbn in H. now injection H as _ <-.
Qed.

Lemma encode_with_target_size_fits_or_quality_min_witness :
  len (blob 95) <= TARGET_MAX_BYTES \/ 95 = QUALITY_MIN.
Proof.
  apply (encode_with_target_size_fits_or_quality_min table_save tiny_sizes).
  vm_compute. reflexivity.
Defined.

(** ** The batch *)

Section BatchFacts.

Context {P : Platform}.

Lemma progress_calls_app cs1 cs2 :
  progress_calls (cs1 ++ cs2) = progress_calls cs1 ++ progress_calls cs2.
Proof. apply filter_app. Qed.

#[local] Instance quiet_frame : Frame quiet.
Proof.
  split; unfold quiet.
  - now intros st.
  - intros st1 st2 st3 [H1 H2] [H3 H4]. split; congruence.
  - now intros st w.
  - intros st c Hc. split; [reflexivity |].
    unfold log. cbn [calls]. rewrite progress_calls_app.
    unfold progress_calls at 2. cbn [filter]. rewrite Hc. apply app_nil_r.
  - now intros st b.
Qed.

#[local] Instance untouched_frame : Frame untouched.
Proof.
  split; unfold untouched.
  - intros st. split; [apply frame_refl | now split].
  - intros st1 st2 st3 (H1 & H2 & H3) (H4 & H5 & H6).
    split; [eapply frame_trans; eassumption | split; congruence].
  - intros st w. split; [apply frame_world | now split].
  - intros st c Hc. split; [now apply frame_log | now split].
  - intros st b. split; [apply frame_flag | now split].
Qed.

Section Preserving.

Context (R : State -> State -> Prop) `{!Frame R}.

Lemma preserving_ret {A} (a : A) : preserving R (ret a).
Proof. intros st. apply frame_refl. Qed.

Lemma preserving_raise {A} exc : preserving R (@raise _ A exc).
Proof. intros st. apply frame_refl. Qed.

Lemma preserving_lift {A} (r : result A) : preserving R (lift r).
Proof. intros st. apply frame_refl. Qed.

Lemma preserving_get {A} (f : State -> A) : preserving R (get f).
Proof. intros st. apply frame_refl. Qed.

Lemma preserving_bind {A B} (m : M A) (k : A -> M B) :
  preserving R m -> (forall a, preserving R (k a)) -> preserving R (bind m k).
Proof.
  intros Hm Hk st. unfold bind. specialize (Hm st).
  destruct (m st) as [[exc | a] st1]; [exact Hm |].
  eapply frame_trans; [exact Hm | apply Hk].
Qed.

Lemma preserving_try_except_when {A} catches (body : M A) handler :
  preserving R body -> (forall exc, preserving R (handler exc)) ->
  preserving R (try_except_when catches body handler).
Proof.
  intros Hm Hk st. unfold try_except_when. specialize (Hm st).
  destruct (body st) as [[exc | a] st1]; [| exact Hm].
  destruct (catches exc); [| exact Hm].
  eapply frame_trans; [exact Hm | apply Hk].
Qed.

Lemma preserving_try_except {A} (body : M A) handler :
  preserving R body -> (forall exc, preserving R (handler exc)) ->
  preserving R (try_except body handler).
Proof. apply preserving_try_except_when. Qed.

Lemma preserving_call {A} c (op : World -> result A * World) :
  is_progress c = false -> preserving R (call c op).
Proof.
  intros Hc st. unfold call. destruct (op (world st)) as [r w]. cbn.
  apply (frame_trans _ (log c st)); [now apply frame_log | apply frame_world].
Qed.

Lemma preserving_query {A} c (q : World -> result A) :
  is_progress c = false -> preserving R (query c q).
Proof. intros Hc st. now apply frame_log. Qed.

Lemma preserving_read {A} (q : World -> result A) : preserving R (read q).
Proof. intros st. apply frame_refl. Qed.

Lemma preserving_modify_flag b : preserving R (modify (set_HEIF_REGISTERED b)).
Proof. intros st. apply frame_flag. Qed.

End Preserving.

(** Goals [preserving R m], by the shape of [m]. *)
Ltac frame :=
  repeat match goal with
    | |- Frame _ => assumption
    | |- forall _, _ => intro
    | |- is_progress _ = false => reflexivity
    | |- preserving _ (ret _) => apply preserving_ret
    | |- preserving _ (raise _) => apply preserving_raise
    | |- preserving _ (lift _) => apply preserving_lift
    | |- preserving _ (get _) => apply preserving_get
    | |- preserving _ (modify (set_HEIF_REGISTERED _)) => apply preserving_modify_flag
    | |- preserving _ (call _ _) => apply preserving_call
    | |- preserving _ (query _ _) => apply preserving_query
    | |- preserving _ (bind _ _) => apply preserving_bind
    | |- preserving _ (try_except _ _) => apply preserving_try_except
    | |- preserving _ (try_except_when _ _ _) => apply preserving_try_except_when
    | |- preserving _ (read _) => apply preserving_read
    | |- preserving _ (if ?b then _ else _) => destruct b
    | |- preserving _ (match ?x with _ => _ end) => destruct x
    end.

Lemma ensure_heif_registered_preserving R `{!Frame R} :
  preserving R _ensure_heif_registered.
Proof. unfold _ensure_heif_registered. frame. Qed.

Lemma batch_setup_preserving R `{!Frame R} wd bf : preserving R (batch_setup wd bf).
Proof.
  unfold batch_setup. apply preserving_bind; [assumption | | frame].
  now apply ensure_heif_registered_preserving.
Qed.

Lemma copy_to_backup_preserving R `{!Frame R} src bdir :
  preserving R (_copy_to_backup src bdir).
Proof. unfold _copy_to_backup. frame. Qed.

Lemma convert_single_preserving R `{!Frame R} src : preserving R (_convert_single src).
Proof. unfold _convert_single. frame. Qed.

Lemma remove_source_file_preserving R `{!Frame R} src :
  preserving R (_remove_source_file src).
Proof. unfold _remove_source_file. frame. Qed.

Lemma backup_and_convert_preserving R `{!Frame R} bdir src :
  preserving R (backup_and_convert bdir src).
Proof.
  unfold backup_and_convert. apply preserving_bind; [assumption | | intros ?].
  - now apply copy_to_backup_preserving.
  - now apply convert_single_preserving.
Qed.

Lemma quiet_modify f :
  (forall st, done (f st) = done st /\ calls (f st) = calls st) ->
  preserving quiet (modify f).
Proof. intros Hf st. cbn. destruct (Hf st) as [Hd Hc]. split; congruence. Qed.

(** What the inner [try] does, read off the existence test and the
    unlink. *)
Lemma remove_step_eq src st :
  remove_step src st =
  let st0 := log (call_exists src) st in
  let cleanup exc :=
    set_errors (errors st ++ [(str src, (cleanup_failed ++ exn_str exc)%string)]) in
  match path_exists src (world st) with
  | inl exc => if is_Exception exc then (inr tt, cleanup exc st0) else (inl exc, st0)
  | inr false => (inr tt, st0)
  | inr true =>
      let st1 := log (call_unlink src) st0 in
      match unlink src (world st) with
      | (inr _, w) => (inr tt, set_world w st1)
      | (inl exc, w) =>
          if is_Exception exc then (inr tt, cleanup exc (set_world w st1))
          else (inl exc, set_world w st1)
      end
  end.
Proof.
  unfold remove_step, try_except, try_except_when, _remove_source_file, bind, query,
    call, ret, modify.
  destruct (path_exists src (world st)) as [exc | []]; cbn.
  - now destruct (is_Exception exc).
  - destruct (unlink src (world st)) as [[exc | []] w]; [| reflexivity].
    now destruct (is_Exception exc).
  - reflexivity.
Qed.

Lemma remove_step_effect src st :
  let st' := snd (remove_step src st) in
  converted st' = converted st /\
  fst (remove_step src st) =
  match deletion true src (world st) with
  | inl exc => if is_Exception exc then inr tt else inl exc
  | inr _ => inr tt
  end /\
  errors st' =
  match deletion true src (world st) with
  | inl exc =>
      if is_Exception exc
      then errors st ++ [(str src, (cleanup_failed ++ exn_str exc)%string)]
      else errors st
  | inr _ => errors st
  end.
Proof.
  rewrite remove_step_eq. unfold deletion. cbv zeta.
  destruct (path_exists src (world st)) as [exc | []].
  - now destruct (is_Exception exc).
  - destruct (unlink src (world st)) as [[exc | u] w]; cbn [fst]; [| now repeat split].
    now destruct (is_Exception exc).
  - now repeat split.
Qed.

Lemma remove_step_raises src st exc :
  fst (remove_step src st) = inl exc -> is_Exception exc = false.
Proof.
  destruct (remove_step_effect src st) as (_ & -> & _).
  destruct (deletion true src (world st)) as [exc' | u]; [| discriminate].
  destruct (is_Exception exc') eqn:E; [discriminate |]. now intros [= <-].
Qed.

Lemma guarded_step_eq rs bdir src st :
  guarded_step rs bdir src st =
  match backup_and_convert bdir src st with
  | (inl exc, st1) =>
      if is_Exception exc
      then (inr tt, set_errors (errors st1 ++ [(str src, exn_str exc)]) st1)
      else (inl exc, st1)
  | (inr (target, quality, size), st1) =>
      (if rs then remove_step src else ret tt)
        (set_converted
           (converted st1 ++ [Build_ConversionResult (str src) (str target) quality size])
           st1)
  end.
Proof.
  unfold guarded_step, try_except, try_except_when, convert_step, backup_and_convert,
    bind, modify.
  destruct (_copy_to_backup src bdir st) as [[exc | []] st0]; [reflexivity |].
  destruct (_convert_single src st0) as [[exc | [[target quality] size]] st1];
    [reflexivity |].
  destruct rs; [| reflexivity].
  match goal with |- context [remove_step src ?s] =>
    pose proof (remove_step_raises src s) as Hr;
    destruct (remove_step src s) as [[exc | []] st2]
  end; [| reflexivity].
  now rewrite (Hr exc eq_refl).
Qed.

Lemma guarded_step_raises rs bdir src st exc :
  fst (guarded_step rs bdir src st) = inl exc -> is_Exception exc = false.
Proof.
  rewrite guarded_step_eq.
  destruct (backup_and_convert bdir src st) as [[exc' | [[target quality] size]] st1].
  - destruct (is_Exception exc') eqn:E; [discriminate |]. now intros [= <-].
  - destruct rs; [apply remove_step_raises | discriminate].
Qed.

Lemma guarded_step_quiet rs bdir src : preserving quiet (guarded_step rs bdir src).
Proof.
  unfold guarded_step, convert_step, remove_step.
  pose proof (copy_to_backup_preserving quiet src bdir).
  pose proof (convert_single_preserving quiet src).
  pose proof (remove_source_file_preserving quiet src).
  pose proof quiet_frame.
  frame; try assumption; apply quiet_modify; intros; split; reflexivity.
Qed.

Lemma report_done_effect total cb st :
  let st' := snd (report_done total cb st) in
  (forall exc, fst (report_done total cb st) = inl exc ->
               is_Exception exc = false \/ truth_test_raises cb exc) /\
  done st' = done st + 1 /\
  calls st' = calls st ++ progress_log cb (world st) (done st + 1) total /\
  converted st' = converted st /\ errors st' = errors st.
Proof.
  unfold report_done, bind, modify, get, read, try_except, try_except_when, call, ret,
    progress_log, truth_test_raises.
  destruct cb as [callback |]; cbn;
    [destruct (truthy callback (world st)) as [exc | []] eqn:Et; cbn |].
  - rewrite app_nil_r. repeat split. intros exc' [= <-]. right. now exists (world st).
  - destruct (invoke callback (done st + 1) total (world st)) as [[exc | []] w]; cbn.
    + destruct (is_Exception exc) eqn:E; cbn; repeat split; try discriminate.
      intros exc' [= <-]. now left.
    + repeat split. discriminate.
  - rewrite app_nil_r. repeat split. discriminate.
  - rewrite app_nil_r. repeat split. discriminate.
Qed.

(** An iteration ends in the state the [finally] block leaves; it raises
    what that block raises, or else what the guarded step raised. *)
Lemma process_path_eq rs bdir total cb src st :
  process_path rs bdir total cb src st =
  let guarded := guarded_step rs bdir src st in
  let reported := report_done total cb (snd guarded) in
  (match fst reported with inl exc => inl exc | inr _ => fst guarded end, snd reported).
Proof.
  unfold process_path, try_finally. cbv zeta.
  destruct (guarded_step rs bdir src st) as [r st1]. cbn [fst snd].
  now destruct (report_done total cb st1) as [[exc | u] st2].
Qed.

Lemma process_path_raises rs bdir total cb src st exc :
  fst (process_path rs bdir total cb src st) = inl exc ->
  is_Exception exc = false \/ truth_test_raises cb exc.
Proof.
  rewrite process_path_eq. cbv zeta. cbn [fst].
  destruct (report_done_effect total cb (snd (guarded_step rs bdir src st))) as (Hr & _).
  destruct (fst (report_done total cb (snd (guarded_step rs bdir src st)))) as [exc' | u].
  - intros [= <-]. now apply Hr.
  - intros H. left. revert H. apply guarded_step_raises.
Qed.

Lemma range_cons a b : a < b -> range a b = a :: range (a + 1) b.
Proof.
  intros Hab. unfold range.
  replace (Z.to_nat (b - a)) with (S (Z.to_nat (b - (a + 1)))) by lia.
  cbn [seq map]. f_equal; [lia |].
  rewrite <- seq_shift, map_map. apply map_ext. intros i. lia.
Qed.

Lemma range_nil a : range a a = [].
Proof. unfold range. now rewrite Z.sub_diag. Qed.

Lemma progress_calls_progress_log cb w d total :
  progress_calls (progress_log cb w d total) = progress_log cb w d total.
Proof.
  destruct cb as [callback |]; [| reflexivity].
  unfold progress_log. now destruct (truthy callback w) as [exc | []].
Qed.

Lemma process_path_effect rs bdir total cb src st :
  let st' := snd (process_path rs bdir total cb src st) in
  done st' = done st + 1 /\
  progress_calls (calls st') =
  progress_calls (calls st) ++
  progress_log cb (world (snd (guarded_step rs bdir src st))) (done st + 1) total.
Proof.
  rewrite process_path_eq. cbn [snd].
  destruct (guarded_step_quiet rs bdir src st) as [Hd Hc].
  destruct (report_done_effect total cb (snd (guarded_step rs bdir src st)))
    as (_ & Hd' & Hc' & _).
  split; [congruence |].
  rewrite Hc', progress_calls_app, progress_calls_progress_log. congruence.
Qed.

(** With a callback whose truth test answers true, a loop that returns has
    called it once per path, with the counter. *)
Lemma for_each_process_path rs bdir total callback l :
  (forall w, truthy callback w = inr true) ->
  forall st,
  let st' := snd (for_each l (process_path rs bdir total (Some callback)) st) in
  fst (for_each l (process_path rs bdir total (Some callback)) st) = inr tt ->
  done st' = done st + Z.of_nat (List.length l) /\
  progress_calls (calls st') =
  progress_calls (calls st) ++
  map (fun i => call_progress i total)
      (range (done st + 1) (done st + 1 + Z.of_nat (List.length l))).
Proof.
  intros Ht. induction l as [| src l IH]; intros st.
  - cbn [for_each List.length]. unfold ret. cbn [fst snd]. intros _.
    change (Z.of_nat 0) with 0. rewrite !Z.add_0_r, range_nil. cbn [map].
    now rewrite app_nil_r.
  - cbn [for_each]. unfold bind.
    pose proof (process_path_effect rs bdir total (Some callback) src st) as [Hd Hc].
    unfold progress_log in Hc. rewrite Ht in Hc.
    destruct (process_path rs bdir total (Some callback) src st) as [[exc | u] st1];
      cbn [snd] in Hd, Hc; [discriminate |].
    cbv zeta. intros Hret. destruct (IH st1 Hret) as (Hd1 & Hc1).
    split; [rewrite Hd1, Hd; cbn [List.length]; lia |].
    rewrite Hc1, Hc, <- app_assoc. f_equal.
    rewrite (range_cons (done st + 1)) by (cbn [List.length]; lia).
    cbn [map app]. f_equal. f_equal. f_equal; rewrite Hd; cbn [List.length]; lia.
Qed.

Lemma for_each_raises rs bdir total cb l : forall st exc,
  fst (for_each l (process_path rs bdir total cb) st) = inl exc ->
  is_Exception exc = false \/ truth_test_raises cb exc.
Proof.
  induction l as [| src l IH]; intros st exc; [discriminate |].
  cbn [for_each]. unfold bind.
  pose proof (process_path_raises rs bdir total cb src st) as Hr.
  destruct (process_path rs bdir total cb src st) as [[exc' | u] st1].
  - intros [= <-]. now apply Hr.
  - apply IH.
Qed.

(** A batch over at least one path: the setup, then the loop from empty
    lists, then the two lists. *)
Lemma convert_heic_batch_eq p paths wd bf rs cb st :
  convert_heic_batch (p :: paths) wd bf rs cb st =
  match batch_setup wd bf st with
  | (inl exc, st1) => (inl exc, st1)
  | (inr _, st1) =>
      let heic_paths := map Path_ (p :: paths) in
      match for_each heic_paths
                     (process_path rs (truediv (Path_ wd) bf)
                                   (Z.of_nat (List.length heic_paths)) cb)
                     (set_done 0 (set_errors [] (set_converted [] st1))) with
      | (inl exc, st2) => (inl exc, st2)
      | (inr _, st2) => (inr (converted st2, errors st2), st2)
      end
  end.
Proof.
  unfold convert_heic_batch, batch_setup. cbn [map]. unfold bind, modify, get, ret.
  destruct (_ensure_heif_registered st) as [[exc | []] st0]; [reflexivity |].
  destruct (call _ _ st0) as [[exc | []] st1]; [reflexivity |].
  cbv zeta.
  match goal with |- context [for_each ?l ?body ?s] =>
    destruct (for_each l body s) as [[exc | []] st2]
  end; reflexivity.
Qed.

(** C4, amended.  When a batch over [N >= 1] paths with a progress callback
    whose truth test answers true returns (its setup did not raise and
    nothing that [except Exception] lets through was raised), the callback
    has been called exactly [N] times during the batch, with first
    arguments [1], [2], ..., [N] in this order and second argument [N],
    whatever happened to each path and whether or not the callback raised
    an [Exception]. *)
Theorem progress_sink_called_once_per_path
        p paths wd bf rs (callback : progress_sink) st r st' :
  (forall w, truthy callback w = inr true) ->
  convert_heic_batch (p :: paths) wd bf rs (Some callback) st = (inr r, st') ->
  let N := Z.of_nat (List.length (p :: paths)) in
  progress_calls (calls st') =
  progress_calls (calls st) ++ map (fun i => call_progress i N) (range 1 (N + 1)).
Proof.
  intros Ht H N. rewrite convert_heic_batch_eq in H.
  destruct (batch_setup_preserving quiet wd bf st) as [_ Hsetup].
  destruct (batch_setup wd bf st) as [[exc | u] st1]; [discriminate |].
  cbv zeta in H. cbn [snd] in Hsetup.
  match type of H with context [for_each ?l ?body ?s] =>
    pose proof (for_each_process_path rs (truediv (Path_ wd) bf)
                  (Z.of_nat (List.length l)) callback l Ht s) as Hloop;
    destruct (for_each l body s) as [[exc | []] st2]
  end; [discriminate |].
  apply (f_equal snd) in H. cbn [snd] in H. subst st'.
  destruct (Hloop eq_refl) as (_ & Hc). cbn [snd] in Hc.
  rewrite Hc. cbn [set_done set_errors set_converted calls done].
  rewrite Hsetup, length_map. f_equal. fold N. f_equal. f_equal. lia.
Qed.

Lemma process_path_outcome rs bdir total cb src st :
  iteration_outcome rs bdir total cb src st (snd (process_path rs bdir total cb src st)).
Proof.
  unfold iteration_outcome. rewrite process_path_eq. cbn [snd].
  rewrite guarded_step_eq.
  destruct (backup_and_convert_preserving untouched bdir src st)
    as ([Hd _] & Hconv & Herr).
  destruct (backup_and_convert bdir src st) as [[exc | [[target quality] size]] st1];
    cbn [snd] in *.
  - destruct (is_Exception exc); cbn [snd];
      match goal with |- context [report_done total cb ?s] =>
        destruct (report_done_effect total cb s) as (_ & _ & Hc' & Hconv' & Herr')
      end;
      rewrite Hconv', Herr', Hc'; cbn; rewrite ?Hconv, ?Herr, Hd; repeat split.
  - destruct rs.
    + match goal with |- context [remove_step src ?s] =>
        destruct (remove_step_effect src s) as (Hrc & _ & Hre);
        destruct (report_done_effect total cb (snd (remove_step src s)))
          as (_ & _ & _ & Hconv' & Herr')
      end.
      cbn [set_converted world converted errors] in Hrc, Hre.
      rewrite Hconv', Herr', Hrc, Hre, Hconv. split; [reflexivity |].
      destruct (deletion true src (world st1)) as [exc | u];
        [destruct (is_Exception exc) |]; now rewrite Herr.
    + unfold ret. cbn [snd deletion].
      match goal with |- context [report_done total cb ?s] =>
        destruct (report_done_effect total cb s) as (_ & _ & _ & Hconv' & Herr')
      end.
      rewrite Hconv', Herr'. cbn. rewrite Hconv, Herr. split; reflexivity.
Qed.

(** An iteration that returns has met only [Exception]s. *)
Lemma process_path_returns rs bdir total cb src st :
  fst (process_path rs bdir total cb src st) = inr tt ->
  match backup_and_convert bdir src st with
  | (inl exc, _) => is_Exception exc = true
  | (inr _, st1) =>
      match deletion rs src (world st1) with
      | inl exc => is_Exception exc = true
      | inr _ => True
      end
  end.
Proof.
  rewrite process_path_eq. cbv zeta. cbn [fst].
  destruct (fst (report_done total cb (snd (guarded_step rs bdir src st))))
    as [exc | u]; [discriminate |].
  rewrite guarded_step_eq.
  destruct (backup_and_convert bdir src st) as [[exc | [[target quality] size]] st1].
  - destruct (is_Exception exc); [reflexivity | discriminate].
  - destruct rs; [| exact (fun _ => I)].
    match goal with |- context [remove_step src ?s] =>
      destruct (remove_step_effect src s) as (_ & -> & _)
    end.
    cbn [set_converted world].
    destruct (deletion true src (world st1)) as [exc | u']; [| exact (fun _ => I)].
    destruct (is_Exception exc); [reflexivity | discriminate].
Qed.

Lemma for_each_dispositions rs bdir total cb l : forall st,
  let st' := snd (for_each l (process_path rs bdir total cb) st) in
  fst (for_each l (process_path rs bdir total cb) st) = inr tt ->
  exists cs es,
    converted st' = converted st ++ cs /\ errors st' = errors st ++ es /\
    dispositions rs l cs es.
Proof.
  induction l as [| src l IH]; intros st.
  - intros st' _. exists [], []. cbn. rewrite !app_nil_r. repeat split. constructor.
  - cbn [for_each]. unfold bind.
    pose proof (process_path_outcome rs bdir total cb src st) as Hout.
    pose proof (process_path_returns rs bdir total cb src st) as Hret.
    destruct (process_path rs bdir total cb src st) as [[exc | []] st1];
      cbv zeta; cbn [fst snd] in *; [discriminate |].
    intros Hloop. destruct (IH st1 Hloop) as (cs & es & Hcs & Hes & Hd).
    specialize (Hret eq_refl). unfold iteration_outcome in Hout.
    destruct (backup_and_convert bdir src st) as [[exc | [[target quality] size]] st0].
    + destruct Hout as (Hc1 & He1 & _). rewrite Hret in He1.
      exists cs, ((str src, exn_str exc) :: es).
      rewrite Hcs, Hes, Hc1, He1, <- app_assoc. repeat split. now constructor.
    + destruct Hout as (Hc1 & He1).
      destruct (deletion rs src (world st0)) as [exc | u] eqn:Hdel.
      * rewrite Hret in He1.
        exists (Build_ConversionResult (str src) (str target) quality size :: cs),
          ((str src, (cleanup_failed ++ exn_str exc)%string) :: es).
        rewrite Hcs, Hes, Hc1, He1, <- !app_assoc. repeat split.
        destruct rs; [now constructor | discriminate Hdel].
      * exists (Build_ConversionResult (str src) (str target) quality size :: cs), es.
        rewrite Hcs, Hes, Hc1, He1, <- !app_assoc. repeat split. now constructor.
Qed.

(** C5.  Every iteration of the loop over the paths leaves the outcome
    [iteration_outcome] describes: when the backup or the conversion raises,
    no result and at most one error (exactly one for an [Exception]) are
    appended and no deletion is attempted; when both return, exactly one
    result is appended, and an error with it only when the deletion of the
    source raised.  Hence the lists a batch returns hold, for each path in
    order, one error, or one result, or one result and one cleanup error,
    the last only when [remove_source] is set. *)
Theorem process_path_dispositions rs :
  (forall bdir total cb src st,
      iteration_outcome rs bdir total cb src st
                        (snd (process_path rs bdir total cb src st))) /\
  (forall p paths wd bf cb st cs es st',
      convert_heic_batch (p :: paths) wd bf rs cb st = (inr (cs, es), st') ->
      dispositions rs (map Path_ (p :: paths)) cs es).
Proof.
  split; [intros; apply process_path_outcome |].
  intros p paths wd bf cb st cs es st' H. rewrite convert_heic_batch_eq in H.
  destruct (batch_setup wd bf st) as [[exc | u] st1]; [discriminate |].
  cbv zeta in H.
  match type of H with context [for_each ?l ?body ?s] =>
    pose proof (for_each_dispositions rs (truediv (Path_ wd) bf)
                  (Z.of_nat (List.length l)) cb l s) as Hloop;
    destruct (for_each l body s) as [[exc | []] st2]
  end; [discriminate |].
  destruct (Hloop eq_refl) as (cs' & es' & Hcs & Hes & Hd).
  cbn [snd set_done set_errors set_converted converted errors app] in Hcs, Hes.
  assert (cs = cs' /\ es = es') as [-> ->]
    by (split; [rewrite <- Hcs | rewrite <- Hes]; congruence).
  exact Hd.
Qed.

(** C6, amended.  A batch over at least one path raises what its setup
    raises (the registration of the codec or the creation of the backup
    directory), in the state the setup left, before any path is processed.
    When the setup returns, the batch raises no [Exception] but one
    that the truth test of the progress callback raised: an iteration lets
    through only what [except Exception] does not catch and what that
    test, made outside the [try], raises; an [Exception] raised by the
    backup, the decoder, the encoder, the write or the deletion is
    recorded as an error of the path. *)
Theorem batch_raises_only_from_setup p paths wd bf rs cb st :
  match batch_setup wd bf st with
  | (inl exc, st1) => convert_heic_batch (p :: paths) wd bf rs cb st = (inl exc, st1)
  | (inr _, _) =>
      forall exc, fst (convert_heic_batch (p :: paths) wd bf rs cb st) = inl exc ->
                  is_Exception exc = false \/ truth_test_raises cb exc
  end /\
  forall bdir total src st0,
    let st' := snd (process_path rs bdir total cb src st0) in
    (forall exc, fst (process_path rs bdir total cb src st0) = inl exc ->
                 is_Exception exc = false \/ truth_test_raises cb exc) /\
    match backup_and_convert bdir src st0 with
    | (inl exc, _) =>
        is_Exception exc = true -> errors st' = errors st0 ++ [(str src, exn_str exc)]
    | (inr _, st1) =>
        match deletion rs src (world st1) with
        | inl exc =>
            is_Exception exc = true ->
            errors st' = errors st0 ++ [(str src, (cleanup_failed ++ exn_str exc)%string)]
        | inr _ => errors st' = errors st0
        end
    end.
Proof.
  split.
  - rewrite convert_heic_batch_eq.
    destruct (batch_setup wd bf st) as [[exc | u] st1]; [reflexivity |].
    cbv zeta. intros exc.
    match goal with |- context [for_each ?l ?body ?s] =>
      pose proof (for_each_raises rs (truediv (Path_ wd) bf)
                    (Z.of_nat (List.length l)) cb l s exc) as Hloop;
      destruct (for_each l body s) as [[exc' | []] st2]
    end; [| discriminate].
    cbn [fst] in *. intros [= ->]. now apply Hloop.
  - intros bdir total src st0 st'. split; [apply process_path_raises |].
    pose proof (process_path_outcome rs bdir total cb src st0) as Hout.
    unfold iteration_outcome in Hout. fold st' in Hout.
    destruct (backup_and_convert bdir src st0) as [[exc | [[target quality] size]] st1].
    + destruct Hout as (_ & He & _). intros Hexc. now rewrite Hexc in He.
    + destruct Hout as (_ & He).
      destruct (deletion rs src (world st1)) as [exc | u]; [| exact He].
      intros Hexc. now rewrite Hexc in He.
Qed.

(** C7.  On the empty list the batch returns two empty lists at once, in
    the state it was called in: no call has been recorded (no directory is
    created, the codec is not registered, the callback is not called) and
    [_HEIF_REGISTERED] and the world are as they were. *)
Theorem convert_heic_batch_empty wd bf rs cb st :
  convert_heic_batch [] wd bf rs cb st = (inr ([], []), st).
Proof. reflexivity. Qed.

(** C8.  When a file of the source's name exists in the backup directory,
    [_copy_to_backup] only asks whether it exists: nothing is copied and
    the world is left as it is.  Hence, on a file system where a copy that
    returns leaves its destination in place, a second call after a first
    one that returned changes nothing: the backup is the file the first
    call left. *)
Theorem copy_to_backup_first_write_wins src backup_dir st st1
        (copy2_creates : forall s d w w',
            path_exists d w = inr false ->
            copy2 s d w = (inr tt, w') -> path_exists d w' = inr true) :
  _copy_to_backup src backup_dir st = (inr tt, st1) ->
  let dst := truediv backup_dir (name src) in
  (forall st2, path_exists dst (world st2) = inr true ->
               _copy_to_backup src backup_dir st2 = (inr tt, log (call_exists dst) st2)) /\
  path_exists dst (world st1) = inr true /\
  _copy_to_backup src backup_dir st1 = (inr tt, log (call_exists dst) st1).
Proof.
  intros H dst.
  assert (forall st2, path_exists dst (world st2) = inr true ->
            _copy_to_backup src backup_dir st2 = (inr tt, log (call_exists dst) st2))
    as Hskip.
  { intros st2 Hex. unfold _copy_to_backup, bind, query. fold dst. now rewrite Hex. }
  assert (path_exists dst (world st1) = inr true) as Hex.
  { unfold _copy_to_backup, bind, query, call, ret in H. fold dst in H.
    destruct (path_exists dst (world st)) as [exc | []] eqn:E.
    - discriminate H.
    - injection H as <-. exact E.
    - cbn [world log] in H.
      destruct (copy2 src dst (world st)) as [r w] eqn:Hcopy.
      injection H as -> <-. cbn. eapply copy2_creates; [exact E | exact Hcopy]. }
  split; [exact Hskip |]. split; [exact Hex | now apply Hskip].
Qed.

(** C9.  Called with [_HEIF_REGISTERED] false, [_ensure_heif_registered]
    leaves it true exactly when the import and then
    [register_heif_opener()] both returned.  When the import raises, the
    flag stays false and the call raises ([RuntimeError] with the
    installation hint for an [ImportError]); so does a batch over at least
    one path, and the next call finds the flag false and imports again. *)
Theorem heif_flag_set_only_after_registration st :
  _HEIF_REGISTERED st = false ->
  let r := fst (_ensure_heif_registered st) in
  let st' := snd (_ensure_heif_registered st) in
  match import_pillow_heif (world st) with
  | (inl exc, _) =>
      let exc' :=
        if is_ImportError exc then Exception RuntimeError missing_pillow_heif else exc in
      _HEIF_REGISTERED st' = false /\ r = inl exc' /\
      forall p paths wd bf rs cb,
        fst (convert_heic_batch (p :: paths) wd bf rs cb st) = inl exc' /\
        _HEIF_REGISTERED (snd (convert_heic_batch (p :: paths) wd bf rs cb st)) = false
  | (inr _, w1) =>
      match register_heif_opener w1 with
      | (inl exc, _) => _HEIF_REGISTERED st' = false /\ r = inl exc
      | (inr _, _) => _HEIF_REGISTERED st' = true /\ r = inr tt
      end
  end.
Proof.
  intros Hflag r st'. subst r st'.
  assert (_ensure_heif_registered st =
          match import_pillow_heif (world st) with
          | (inl exc, w) =>
              (inl (if is_ImportError exc
                    then Exception RuntimeError missing_pillow_heif else exc),
               set_world w (log call_import_pillow_heif st))
          | (inr _, w) =>
              match call call_register_heif_opener register_heif_opener
                         (set_world w (log call_import_pillow_heif st)) with
              | (inl exc, st1) => (inl exc, st1)
              | (inr _, st1) => (inr tt, set_HEIF_REGISTERED true st1)
              end
          end) as Heq.
  { unfold _ensure_heif_registered, bind, get, try_except_when, call, modify, raise.
    rewrite Hflag.
    destruct (import_pillow_heif (world st)) as [[exc | []] w]; cbn.
    - now destruct (is_ImportError exc).
    - now destruct (register_heif_opener w) as [[exc | []] w']. }
  revert Heq. destruct (import_pillow_heif (world st)) as [[exc | u] w]; intros Heq.
  - cbv zeta. rewrite Heq. split; [exact Hflag |]. split; [reflexivity |].
    intros p paths wd bf rs cb. rewrite convert_heic_batch_eq.
    unfold batch_setup, bind. rewrite Heq. split; [reflexivity | exact Hflag].
  - rewrite Heq. unfold call. cbn [world set_world log].
    now destruct (register_heif_opener w) as [[exc | []] w'].
Qed.

(** C10, amended.  [remove_step] is the [try] around
    [_remove_source_file].  When the existence test returns [False],
    [_remove_source_file] returns after that test alone: nothing is
    unlinked, nothing is raised and no error is appended.  An error is
    appended exactly when the existence test, or the unlinking of a source
    that exists, raises an [Exception]; when the test raises, nothing is
    unlinked.  What is raised and is not an [Exception] leaves the step. *)
Theorem remove_source_file_missing_is_silent src st :
  let st' := snd (remove_step src st) in
  let failed exc :=
    if is_Exception exc
    then fst (remove_step src st) = inr tt /\
         errors st' = errors st ++ [(str src, (cleanup_failed ++ exn_str exc)%string)]
    else fst (remove_step src st) = inl exc /\ errors st' = errors st in
  match path_exists src (world st) with
  | inr false =>
      _remove_source_file src st = (inr tt, log (call_exists src) st) /\
      remove_step src st = (inr tt, log (call_exists src) st)
  | inr true =>
      calls st' = calls st ++ [call_exists src; call_unlink src] /\
      match unlink src (world st) with
      | (inl exc, _) => failed exc
      | (inr _, _) => fst (remove_step src st) = inr tt /\ errors st' = errors st
      end
  | inl exc => calls st' = calls st ++ [call_exists src] /\ failed exc
  end.
Proof.
  intros st' failed. subst st' failed. rewrite remove_step_eq.
  unfold _remove_source_file, bind, query, ret.
  destruct (path_exists src (world st)) as [exc | []]; cbv zeta.
  - now destruct (is_Exception exc).
  - destruct (unlink src (world st)) as [[exc | u] w];
      [destruct (is_Exception exc) |]; cbn; now rewrite <- app_assoc.
  - now split.
Qed.

End BatchFacts.

(** ** The batch on the platform in memory *)

Import Mem.

(** Three paths, the second one not a picture, the third one protected
    from deletion; the progress callback raises at every call. *)
Example batch_on_disk_ok :
  fst (convert_heic_batch ["work/a.heic"; "work/b.heic"; "work/c.heic"] "work" "kopia heic"
                          true (Some failing_sink) (fresh disk_ok)) =
  inr ([Build_ConversionResult "work/a.heic" "work/a.jpg" 95 9;
        Build_ConversionResult "work/c.heic" "work/c.jpg" 95 9],
       [("work/b.heic", "cannot identify image file work/b.heic");
        ("work/c.heic", (cleanup_failed ++ "Permission denied: work/c.heic")%string)]).
Proof. vm_compute. reflexivity. Qed.

(** C4, as stated, fails: without pillow_heif a batch over one path raises in
    its setup and the callback is never called, so its calls are not
    [(1, 1)]. *)
Lemma progress_sink_not_called_without_pillow_heif :
  let st := fresh disk_no_heif in
  let st' :=
    snd (convert_heic_batch ["work/a.heic"] "work" "kopia heic" false
                            (Some quiet_sink) st) in
  progress_calls (calls st') <>
  progress_calls (calls st) ++ map (fun i => call_progress i 1) (range 1 (1 + 1)).
Proof. vm_compute. discriminate. Qed.

Lemma progress_sink_called_once_per_path_witness :
  exists outcome st',
    convert_heic_batch ["work/a.heic"; "work/b.heic"; "work/c.heic"] "work" "kopia heic"
                       true (Some failing_sink) (fresh disk_ok) = (inr outcome, st') /\
    progress_calls (calls st') =
    progress_calls (calls (fresh disk_ok)) ++
    map (fun i => call_progress i 3) (range 1 (3 + 1)).
Proof.
  destruct (convert_heic_batch ["work/a.heic"; "work/b.heic"; "work/c.heic"] "work"
              "kopia heic" true (Some failing_sink) (fresh disk_ok))
    as [[exc | outcome] st'] eqn:H.
  - exfalso. apply (f_equal (fun out => raised (fst out))) in H.
    vm_compute in H. discriminate H.
  - exists outcome, st'. split; [reflexivity |].
    exact (progress_sink_called_once_per_path _ _ _ _ _ failing_sink _ _ _
             (fun _ => eq_refl) H).
Defined.

(** A callable whose truth test answers false is never called; one whose
    truth test raises, and a callback that is interrupted, end the batch
    at the first path, after its conversion. *)
Example falsy_sink_is_not_called :
  let batch :=
    convert_heic_batch ["work/a.heic"; "work/b.heic"] "work" "kopia heic" false
                       (Some falsy_sink) (fresh disk_ok) in
  raised (fst batch) = false /\ progress_calls (calls (snd batch)) = [].
Proof. vm_compute. split; reflexivity. Qed.

Example untestable_sink_ends_the_batch :
  let batch :=
    convert_heic_batch ["work/a.heic"; "work/b.heic"] "work" "kopia heic" false
                       (Some untestable_sink) (fresh disk_ok) in
  fst batch = inl (Exception ValueError "truth value is ambiguous") /\
  converted (snd batch) = [Build_ConversionResult "work/a.heic" "work/a.jpg" 95 9] /\
  errors (snd batch) = [] /\ done (snd batch) = 1.
Proof. vm_compute. repeat split. Qed.

Example interrupted_sink_ends_the_batch :
  let batch :=
    convert_heic_batch ["work/a.heic"; "work/b.heic"] "work" "kopia heic" false
                       (Some interrupted_sink) (fresh disk_ok) in
  fst batch = inl (Exception KeyboardInterrupt EmptyString) /\
  converted (snd batch) = [Build_ConversionResult "work/a.heic" "work/a.jpg" 95 9] /\
  errors (snd batch) = [] /\ done (snd batch) = 1.
Proof. vm_compute. repeat split. Qed.

Lemma process_path_dispositions_witness :
  exists cs es st',
    convert_heic_batch ["work/a.heic"; "work/b.heic"; "work/c.heic"] "work" "kopia heic"
                       true (Some failing_sink) (fresh disk_ok) = (inr (cs, es), st') /\
    dispositions true (map Path_ ["work/a.heic"; "work/b.heic"; "work/c.heic"]) cs es.
Proof.
  destruct (convert_heic_batch ["work/a.heic"; "work/b.heic"; "work/c.heic"] "work"
              "kopia heic" true (Some failing_sink) (fresh disk_ok))
    as [[exc | [cs es]] st'] eqn:H.
  - exfalso. apply (f_equal (fun out => raised (fst out))) in H.
    vm_compute in H. discriminate H.
  - exists cs, es, st'. split; [reflexivity |].
    exact (proj2 (process_path_dispositions true) _ _ _ _ _ _ _ _ _ H).
Defined.

(** C6, as stated, fails: when a regular file has the name of the backup
    directory, the codec is registered, [mkdir] raises and the batch raises
    with it; nothing is recorded in [errors]. *)
Lemma mkdir_failure_propagates :
  let st := fresh disk_blocked in
  let batch := convert_heic_batch ["work/a.heic"] "work" "kopia heic" false None st in
  fst (_ensure_heif_registered st) = inr tt /\
  fst batch = inl (Exception OSError "File exists: work/kopia heic") /\
  errors (snd batch) = [].
Proof. vm_compute. repeat split. Qed.

Lemma batch_raises_only_from_setup_witness :
  let src : Path := "work/b.heic" in
  let st' := snd (process_path true "work/kopia heic" 1 None src (fresh disk_ok)) in
  errors st' = [("work/b.heic", "cannot identify image file work/b.heic")].
Proof.
  intros src st'.
  pose proof (proj2 (batch_raises_only_from_setup "work/a.heic" [] "work" "kopia heic"
                       true None (fresh disk_ok))
                    "work/kopia heic" 1 src (fresh disk_ok)) as [_ H].
  exact (H eq_refl).
Defined.

(** C10, as stated, fails: the source is converted, then the existence test
    before its deletion raises; a cleanup error is recorded although
    nothing was unlinked. *)
Lemma cleanup_error_without_unlink :
  let st := fresh disk_stat_fails in
  let batch := convert_heic_batch ["work/a.heic"] "work" "kopia heic" true None st in
  fst batch =
  inr ([Build_ConversionResult "work/a.heic" "work/a.jpg" 95 9],
       [("work/a.heic", (cleanup_failed ++ "Input/output error: work/a.heic")%string)]) /\
  filter is_unlink (calls (snd batch)) = [] /\
  lookup "work/a.heic" (files (world (snd batch))) = Some picture.
Proof. vm_compute. repeat split. Qed.

Lemma disk_copy2_creates s d w w' :
  path_exists d w = inr false ->
  disk_copy2 s d w = (inr tt, w') -> path_exists d w' = inr true.
Proof.
  cbn [path_exists platform]. unfold disk_stat, disk_copy2, disk_write_bytes, raises.
  destruct (existsb (String.eqb d) (stat_fails w)) eqn:Es; [discriminate |]. intros _.
  destruct (lookup s (files w)) as [data |]; [| discriminate].
  destruct (is_dir d w); [discriminate |].
  intros H. injection H as <-. cbn [stat_fails set_files]. rewrite Es.
  unfold is_file. cbn. now rewrite String.eqb_refl.
Qed.

(** The source is rewritten between two backups: the backup keeps the
    content of the first one, in a single file. *)
Example backup_keeps_first_copy :
  let src : Path := "work/a.heic" in
  let backup_dir : Path := "work/kopia heic" in
  let st1 := snd (_copy_to_backup src backup_dir (fresh disk_ok)) in
  let st2 := snd (call (call_write_bytes src) (write_bytes src [x0b; x0c]) st1) in
  let st3 := snd (_copy_to_backup src backup_dir st2) in
  lookup src (files (world st3)) = Some [x0b; x0c] /\
  filter (fun entry => String.eqb "work/kopia heic/a.heic" (fst entry))
         (files (world st3)) = [("work/kopia heic/a.heic", picture)].
Proof. vm_compute. split; reflexivity. Qed.

Lemma copy_to_backup_first_write_wins_witness :
  let src : Path := "work/a.heic" in
  let backup_dir : Path := "work/kopia heic" in
  let dst : Path := "work/kopia heic/a.heic" in
  exists st1,
    _copy_to_backup src backup_dir (fresh disk_ok) = (inr tt, st1) /\
    lookup dst (files (world st1)) = Some picture /\
    _copy_to_backup src backup_dir st1 = (inr tt, log (call_exists dst) st1).
Proof.
  intros src backup_dir dst.
  destruct (_copy_to_backup src backup_dir (fresh disk_ok)) as [[exc | []] st1] eqn:H.
  - exfalso. apply (f_equal (fun out => raised (fst out))) in H.
    vm_compute in H. discriminate H.
  - exists st1. split; [reflexivity |]. split.
    + vm_compute in H. injection H as <-. reflexivity.
    + exact (proj2 (proj2 (copy_to_backup_first_write_wins
                             src backup_dir _ st1 disk_copy2_creates H))).
Defined.

Lemma heif_flag_set_only_after_registration_witness :
  _HEIF_REGISTERED (snd (_ensure_heif_registered (fresh disk_no_heif))) = false /\
  fst (_ensure_heif_registered (fresh disk_no_heif)) =
  inl (Exception RuntimeError missing_pillow_heif).
Proof.
  pose proof (heif_flag_set_only_after_registration (fresh disk_no_heif) eq_refl) as H.
  cbn in H. destruct H as (Hflag & Hraise & _). split; assumption.
Defined.

(** ** More on the quality search *)

Section MoreSearchFacts.

Context {Image : Type} (save : Image -> Z -> Z -> bool -> result bytes).

Lemma In_range x a b : In x (range a b) <-> a <= x < b.
Proof.
  unfold range. rewrite in_map_iff. split.
  - intros (i & <- & Hi). apply in_seq in Hi. lia.
  - intros Hx. exists (Z.to_nat (x - a)). split; [lia |]. apply in_seq. lia.
Qed.

Lemma bisect_raises image n : forall low high best exc,
  (Z.to_nat (high - low + 1) <= n)%nat ->
  bisect save image low high best = inl exc ->
  exists q, low <= q <= high /\ _encode_jpeg save image q = inl exc.
Proof.
  induction n as [| n IH]; intros low high best exc Hn Hr.
  - rewrite bisect_exit in Hr by lia. discriminate.
  - destruct (Z_lt_le_dec high low) as [Hgt | Hle].
    + rewrite bisect_exit in Hr by lia. discriminate.
    + pose proof (midpoint_bounds low high Hle) as Hmid.
      destruct (_encode_jpeg save image ((low + high) / 2)) as [exc' | data] eqn:Henc.
      * rewrite bisect_eq, Henc in Hr.
        apply Z.leb_le in Hle. rewrite Hle in Hr. injection Hr as ->.
        exists ((low + high) / 2). now split.
      * destruct (Z_lt_le_dec TARGET_MAX_BYTES (len data)) as [Hbig | Hfit].
        -- rewrite (bisect_over _ _ _ _ _ _ Hle Henc Hbig) in Hr.
           apply IH in Hr; [| lia]. destruct Hr as (q & Hq & He).
           exists q. split; [lia | exact He].
        -- rewrite (bisect_fits _ _ _ _ _ _ Hle Henc Hfit) in Hr.
           apply IH in Hr; [| lia]. destruct Hr as (q & Hq & He).
           exists q. split; [lia | exact He].
Qed.

Lemma refine_raises image : forall qualities data size quality exc,
  refine save image qualities data size quality = inl exc ->
  exists q, In q qualities /\ _encode_jpeg save image q = inl exc.
Proof.
  induction qualities as [| q rest IH]; intros data size quality exc Hr; cbn in Hr.
  - discriminate.
  - destruct (_encode_jpeg save image q) as [exc' | candidate] eqn:Henc.
    + injection Hr as ->. exists q. split; [now left | exact Henc].
    + destruct (len candidate >? TARGET_MAX_BYTES); [discriminate |].
      apply IH in Hr. destruct Hr as (q' & Hin & He).
      exists q'. split; [now right | exact He].
Qed.

Lemma refine_consecutive image n : forall q0 data size data' size' quality',
  _encode_jpeg save image q0 = inr data -> len data <= TARGET_MAX_BYTES ->
  refine save image (range (q0 + 1) (q0 + 1 + Z.of_nat n)) data size q0 =
  inr (data', size', quality') ->
  q0 <= quality' <= q0 + Z.of_nat n /\ len data' <= TARGET_MAX_BYTES /\
  provenance save image data' quality'.
Proof.
  induction n as [| n IH]; intros q0 data size data' size' quality' Henc Hfit Hr.
  - change (Z.of_nat 0) with 0 in *. rewrite Z.add_0_r, range_nil in Hr.
    cbn in Hr. injection Hr as <- _ <-. split; [lia |]. split; [exact Hfit |].
    now left.
  - rewrite range_cons in Hr by lia. cbn [refine] in Hr.
    destruct (_encode_jpeg save image (q0 + 1)) as [exc | candidate] eqn:Hc;
      [discriminate |].
    cbv zeta in Hr. destruct (len candidate >? TARGET_MAX_BYTES) eqn:Hbig.
    + injection Hr as <- _ <-. split; [lia |]. split; [exact Hfit |].
      right. replace (q0 + 1 - 1) with q0 by lia. split; [exact Henc |].
      exists candidate. split; [exact Hc | now apply Z.gtb_lt].
    + replace (q0 + 1 + Z.of_nat (S n)) with (q0 + 1 + 1 + Z.of_nat n) in Hr by lia.
      apply IH in Hr; [| exact Hc |].
      * destruct Hr as (Hq & Hf & Hp). split; [lia |]. now split.
      * rewrite Z.gtb_ltb in Hbig. now apply Z.ltb_ge in Hbig.
Qed.

Lemma search_result_shape image data quality :
  _encode_with_target_size save image = inr (data, quality) ->
  QUALITY_MIN <= quality <= QUALITY_MAX /\
  (len data <= TARGET_MAX_BYTES \/ quality = QUALITY_MIN) /\
  provenance save image data quality.
Proof.
  unfold _encode_with_target_size. intros H.
  destruct (bisect save image QUALITY_MIN QUALITY_MAX None) as [exc | best] eqn:Hb;
    [discriminate |].
  cbn [Res.bind] in H.
  destruct best as [[[size q] d] |].
  - apply (bisect_accepted save image _ _ _ _ _ (le_n _)) in Hb.
    destruct Hb as [Hb | (c & Hc & Hacc)]; [discriminate |].
    injection Hc as <-. destruct Hacc as (Hq & Henc & -> & Hfit).
    destruct ((len d <? TARGET_MIN_BYTES) && (q <? QUALITY_MAX)) eqn:Hcond.
    + apply andb_prop in Hcond. destruct Hcond as [_ Hlt]. apply Z.ltb_lt in Hlt.
      destruct (refine save image _ d (len d) q) as [exc | [[d' s'] q']] eqn:Hr;
        [discriminate |].
      cbn in H. injection H as <- <-.
      replace (QUALITY_MAX + 1) with (q + 1 + Z.of_nat (Z.to_nat (QUALITY_MAX - q)))
        in Hr by lia.
      apply (refine_consecutive image _ _ _ _ _ _ _ Henc Hfit) in Hr.
      destruct Hr as (Hq' & Hf & Hp). split; [lia |]. split; [now left | exact Hp].
    + injection H as <- <-. split; [exact Hq |]. split; [now left | now left].
  - destruct (_encode_jpeg save image QUALITY_MIN) as [exc | d] eqn:Henc;
      [discriminate |].
    cbn in H. injection H as <- <-.
    split; [unfold QUALITY_MIN, QUALITY_MAX; lia |]. split; [now right | now left].
Qed.

(** X1.  The quality [_encode_with_target_size] returns is within
    [QUALITY_MIN .. QUALITY_MAX]. *)
Theorem encode_with_target_size_quality_in_range image data quality :
  _encode_with_target_size save image = inr (data, quality) ->
  QUALITY_MIN <= quality <= QUALITY_MAX.
Proof. intros H. now apply search_result_shape in H. Qed.

(** X2.  The bytes [_encode_with_target_size] returns are the encoding at
    the returned quality, or else the encoding one quality below it, and
    then the encoding at the returned quality is larger than
    [TARGET_MAX_BYTES]: the returned quality is never further than one step
    from the one the bytes were encoded at. *)
Theorem encode_with_target_size_provenance image data quality :
  _encode_with_target_size save image = inr (data, quality) ->
  _encode_jpeg save image quality = inr data \/
  (_encode_jpeg save image (quality - 1) = inr data /\
   exists rejected, _encode_jpeg save image quality = inr rejected /\
                    TARGET_MAX_BYTES < len rejected).
Proof. intros H. now apply search_result_shape in H. Qed.

(** X3.  [_encode_with_target_size] raises only what the encoder raised at
    a quality within [QUALITY_MIN .. QUALITY_MAX]. *)
Theorem encode_with_target_size_raises_from_encoder image exc :
  _encode_with_target_size save image = inl exc ->
  exists q, QUALITY_MIN <= q <= QUALITY_MAX /\ _encode_jpeg save image q = inl exc.
Proof.
  unfold _encode_with_target_size. intros H.
  destruct (bisect save image QUALITY_MIN QUALITY_MAX None) as [exc' | best] eqn:Hb.
  - cbn in H. injection H as ->.
    now apply (bisect_raises image _ _ _ _ _ (le_n _)) in Hb.
  - cbn [Res.bind] in H. destruct best as [[[size q] d] |].
    + apply (bisect_accepted save image _ _ _ _ _ (le_n _)) in Hb.
      destruct Hb as [Hb | (c & Hc & Hacc)]; [discriminate |].
      injection Hc as <-. destruct Hacc as (Hq & _).
      destruct ((size <? TARGET_MIN_BYTES) && (q <? QUALITY_MAX)); [| discriminate].
      destruct (refine save image _ d size q) as [exc' | [[d' s'] q']] eqn:Hr;
        [| discriminate].
      cbn in H. injection H as ->.
      apply refine_raises in Hr. destruct Hr as (q' & Hin & He).
      apply In_range in Hin. exists q'. split; [lia | exact He].
    + destruct (_encode_jpeg save image QUALITY_MIN) as [exc' | d] eqn:Henc;
        [| discriminate].
      cbn in H. injection H as ->. exists QUALITY_MIN.
      split; [unfold QUALITY_MIN, QUALITY_MAX; lia | exact Henc].
Qed.

End MoreSearchFacts.

Section MonotoneSearch.

Context {Image : Type} (save : Image -> Z -> Z -> bool -> result bytes).

(** X4.  With sizes that do not decrease as quality grows, the bytes
    returned are the encoding at the highest quality that fits
    [TARGET_MAX_BYTES].  The quality returned is that quality, unless the
    encoding is smaller than [TARGET_MIN_BYTES] and the quality is below
    [QUALITY_MAX]: it is then one more. *)
Theorem encode_with_target_size_highest_fitting image q data
        (Hmono : monotone save image) (Henc : encodable save image) :
  QUALITY_MIN <= q <= QUALITY_MAX ->
  _encode_jpeg save image q = inr data ->
  len data <= TARGET_MAX_BYTES ->
  oversize_above save image q ->
  _encode_with_target_size save image =
  inr (data, if (len data <? TARGET_MIN_BYTES) && (q <? QUALITY_MAX) then q + 1 else q).
Proof.
  intros Hq Hdata Hfit Hover.
  destruct (bisect_monotone save image Hmono Henc _ QUALITY_MIN QUALITY_MAX None
              (le_n _)) as (r & Hr & Hspec).
  1-3: unfold QUALITY_MIN, QUALITY_MAX; lia.
  { intros q' s Hq'. lia. }
  { left. split; reflexivity. }
  unfold _encode_with_target_size. rewrite Hr. cbn [Res.bind].
  pose proof (encoded_size_inr save _ _ _ Hdata) as Hsize.
  destruct Hspec as [[-> Hnone] | (size & q' & d' & -> & Hacc & Hover')].
  - specialize (Hnone q (len data) ltac:(lia) Hsize). lia.
  - destruct Hacc as (Hq' & Hd' & -> & Hfit').
    assert (q' = q) as ->.
    { destruct (Z.lt_trichotomy q' q) as [Hlt | [Heq | Hgt]]; [| exact Heq |].
      - specialize (Hover' q (len data) ltac:(lia) Hsize). lia.
      - specialize (Hover q' (len d') ltac:(lia) (encoded_size_inr save _ _ _ Hd')). lia. }
    assert (d' = data) as -> by congruence.
    destruct ((len data <? TARGET_MIN_BYTES) && (q <? QUALITY_MAX)) eqn:Hcond;
      [| reflexivity].
    apply andb_prop in Hcond. destruct Hcond as [_ Hlt]. apply Z.ltb_lt in Hlt.
    rewrite range_cons by lia. cbn [refine].
    destruct (_encode_jpeg save image (q + 1)) as [exc | candidate] eqn:Hc.
    + exfalso. apply (Henc (q + 1)); [lia |]. unfold encoded_size. now rewrite Hc.
    + cbv zeta.
      specialize (Hover (q + 1) (len candidate) ltac:(lia) (encoded_size_inr save _ _ _ Hc)).
      apply Z.gtb_lt in Hover. rewrite Hover. reflexivity.
Qed.

(** X5.  With sizes that do not decrease as quality grows, a picture whose
    encoding at [QUALITY_MIN] is already larger than [TARGET_MAX_BYTES]
    comes back as that encoding, at [QUALITY_MIN]. *)
Theorem encode_with_target_size_fallback image data
        (Hmono : monotone save image) (Henc : encodable save image) :
  _encode_jpeg save image QUALITY_MIN = inr data ->
  TARGET_MAX_BYTES < len data ->
  _encode_with_target_size save image = inr (data, QUALITY_MIN).
Proof.
  intros Hdata Hbig.
  destruct (bisect_monotone save image Hmono Henc _ QUALITY_MIN QUALITY_MAX None
              (le_n _)) as (r & Hr & Hspec).
  1-3: unfold QUALITY_MIN, QUALITY_MAX; lia.
  { intros q' s Hq'. lia. }
  { left. split; reflexivity. }
  unfold _encode_with_target_size. rewrite Hr. cbn [Res.bind].
  destruct Hspec as [[-> _] | (size & q' & d' & -> & Hacc & _)].
  - rewrite Hdata. reflexivity.
  - exfalso. destruct Hacc as (Hq' & Hd' & -> & Hfit').
    pose proof (Hmono QUALITY_MIN q' (len data) (len d') ltac:(lia) ltac:(lia) ltac:(lia)
                      (encoded_size_inr save _ _ _ Hdata)
                      (encoded_size_inr save _ _ _ Hd')).
    lia.
Qed.

Lemma bisect_all_fit image n : forall low high best,
  (Z.to_nat (high - low + 1) <= n)%nat -> low <= high ->
  (forall q, low <= q <= high ->
             exists d, _encode_jpeg save image q = inr d /\ len d <= TARGET_MAX_BYTES) ->
  exists d, _encode_jpeg save image high = inr d /\
            bisect save image low high best = inr (Some (len d, high, d)).
Proof.
  induction n as [| n IH]; intros low high best Hn Hle Hall; [lia |].
  pose proof (midpoint_bounds low high Hle) as Hmid.
  destruct (Hall ((low + high) / 2) Hmid) as (d & Hd & Hfit).
  rewrite (bisect_fits _ _ _ _ _ _ Hle Hd Hfit).
  destruct (Z_lt_le_dec high ((low + high) / 2 + 1)) as [Hlast | Hmore].
  - assert ((low + high) / 2 = high) as E by lia.
    rewrite bisect_exit by lia. rewrite E in *. now exists d.
  - apply IH; [lia | lia |]. intros q Hq. apply Hall. lia.
Qed.

(** X6.  When the encoding fits [TARGET_MAX_BYTES] at every quality,
    whatever the shape of the sizes, the picture comes back encoded at
    [QUALITY_MAX], also when that is smaller than [TARGET_MIN_BYTES]. *)
Theorem encode_with_target_size_all_fit image :
  (forall q, QUALITY_MIN <= q <= QUALITY_MAX ->
             exists d, _encode_jpeg save image q = inr d /\ len d <= TARGET_MAX_BYTES) ->
  exists data, _encode_jpeg save image QUALITY_MAX = inr data /\
               _encode_with_target_size save image = inr (data, QUALITY_MAX).
Proof.
  intros Hall.
  destruct (bisect_all_fit image _ QUALITY_MIN QUALITY_MAX None (le_n _)) as (d & Hd & Hb);
    [unfold QUALITY_MIN, QUALITY_MAX; lia | exact Hall |].
  exists d. split; [exact Hd |].
  unfold _encode_with_target_size. rewrite Hb. cbn [Res.bind].
  rewrite Z.ltb_irrefl, andb_false_r. reflexivity.
Qed.

End MonotoneSearch.

Lemma encode_with_target_size_quality_in_range_witness :
  QUALITY_MIN <= 61 <= QUALITY_MAX.
Proof.
  exact (encode_with_target_size_quality_in_range table_save step_sizes _ _
           step_sizes_search).
Defined.

Lemma encode_with_target_size_provenance_witness :
  _encode_jpeg table_save step_sizes 61 = inr (blob 500000) \/
  (_encode_jpeg table_save step_sizes (61 - 1) = inr (blob 500000) /\
   exists rejected, _encode_jpeg table_save step_sizes 61 = inr rejected /\
                    TARGET_MAX_BYTES < len rejected).
Proof.
  exact (encode_with_target_size_provenance table_save step_sizes _ _ step_sizes_search).
Defined.

Lemma encode_with_target_size_raises_from_encoder_witness :
  exists q, QUALITY_MIN <= q <= QUALITY_MAX /\
            _encode_jpeg broken_save tt q =
            inl (Exception OtherException "encoder error").
Proof.
  apply (encode_with_target_size_raises_from_encoder broken_save tt).
  vm_compute. reflexivity.
Defined.

Lemma oversize_above_linear_66 : oversize_above table_save linear_sizes 66.
Proof.
  intros q' s Hq' Hs. unfold QUALITY_MAX in Hq'.
  rewrite encoded_size_table in Hs by (unfold linear_sizes; lia).
  injection Hs as <-. unfold linear_sizes, TARGET_MAX_BYTES. lia.
Qed.

Lemma encode_with_target_size_highest_fitting_witness :
  _encode_with_target_size table_save linear_sizes =
  inr (blob 1980000,
       if (len (blob 1980000) <? TARGET_MIN_BYTES) && (66 <? QUALITY_MAX)
       then 66 + 1 else 66).
Proof.
  apply (encode_with_target_size_highest_fitting table_save linear_sizes 66 (blob 1980000)
           linear_sizes_monotone linear_sizes_encodable).
  - zcmp.
  - exact (table_encode linear_sizes 66).
  - rewrite len_blob by lia. zcmp.
  - exact oversize_above_linear_66.
Defined.

Lemma flat_sizes_monotone : monotone table_save flat_sizes.
Proof.
  intros q1 q2 s1 s2 _ _ _ H1 H2.
  rewrite encoded_size_table in H1, H2 by (unfold flat_sizes; lia).
  injection H1 as <-. injection H2 as <-. unfold flat_sizes. lia.
Qed.

Lemma flat_sizes_encodable : encodable table_save flat_sizes.
Proof.
  intros q _. rewrite encoded_size_table by (unfold flat_sizes; lia). discriminate.
Qed.

Lemma encode_with_target_size_fallback_witness :
  _encode_with_target_size table_save flat_sizes = inr (blob 3000000, QUALITY_MIN).
Proof.
  apply (encode_with_target_size_fallback table_save flat_sizes (blob 3000000)
           flat_sizes_monotone flat_sizes_encodable).
  - exact (table_encode flat_sizes 40).
  - rewrite len_blob by lia. zcmp.
Defined.

Lemma encode_with_target_size_all_fit_witness :
  exists data, _encode_jpeg table_save tiny_sizes QUALITY_MAX = inr data /\
               _encode_with_target_size table_save tiny_sizes = inr (data, QUALITY_MAX).
Proof.
  apply (encode_with_target_size_all_fit table_save tiny_sizes).
  intros q Hq. unfold QUALITY_MIN in Hq. exists (blob (tiny_sizes q)).
  split; [apply table_encode |].
  rewrite len_blob by (unfold tiny_sizes; lia).
  unfold tiny_sizes, TARGET_MAX_BYTES. unfold QUALITY_MAX in Hq. lia.
Defined.

(** ** More on the batch *)

Section MoreBatchFacts.

Context {P : Platform}.

Section Keeps.

Context {X : Type} (f : State -> X).

Lemma keeps_ret {A} (a : A) : keeps f (ret a).
Proof. now intros st. Qed.

Lemma keeps_raise {A} exc : keeps f (@raise _ A exc).
Proof. now intros st. Qed.

Lemma keeps_lift {A} (r : result A) : keeps f (lift r).
Proof. now intros st. Qed.

Lemma keeps_get {A} (g : State -> A) : keeps f (get g).
Proof. now intros st. Qed.

Lemma keeps_modify g : (forall st, f (g st) = f st) -> keeps f (modify g).
Proof. intros Hg st. apply Hg. Qed.

Lemma keeps_bind {A B} (m : M A) (k : A -> M B) :
  keeps f m -> (forall a, keeps f (k a)) -> keeps f (bind m k).
Proof.
  intros Hm Hk st. unfold bind. specialize (Hm st).
  destruct (m st) as [[exc | a] st1]; [exact Hm |].
  rewrite Hk. exact Hm.
Qed.

Lemma keeps_try_except_when {A} catches (body : M A) handler :
  keeps f body -> (forall exc, keeps f (handler exc)) ->
  keeps f (try_except_when catches body handler).
Proof.
  intros Hm Hk st. unfold try_except_when. specialize (Hm st).
  destruct (body st) as [[exc | a] st1]; [| exact Hm].
  destruct (catches exc); [| exact Hm].
  rewrite Hk. exact Hm.
Qed.

Lemma keeps_try_except {A} (body : M A) handler :
  keeps f body -> (forall exc, keeps f (handler exc)) -> keeps f (try_except body handler).
Proof. apply keeps_try_except_when. Qed.

Lemma keeps_try_finally {A} (body : M A) final :
  keeps f body -> keeps f final -> keeps f (try_finally body final).
Proof.
  intros Hm Hk st. unfold try_finally. specialize (Hm st).
  destruct (body st) as [r st1]. specialize (Hk st1).
  destruct (final st1) as [[exc | u] st2]; cbn [snd] in *; congruence.
Qed.

Lemma keeps_call {A} c (op : World -> result A * World) :
  (forall st w, f (set_world w (log c st)) = f st) -> keeps f (call c op).
Proof. intros Hc st. unfold call. destruct (op (world st)) as [r w]. apply Hc. Qed.

Lemma keeps_query {A} c (q : World -> result A) :
  (forall st, f (log c st) = f st) -> keeps f (query c q).
Proof. intros Hc st. apply Hc. Qed.

Lemma keeps_read {A} (q : World -> result A) : keeps f (read q).
Proof. now intros st. Qed.

Lemma keeps_for_each {A} (l : list A) body :
  (forall x, keeps f (body x)) -> keeps f (for_each l body).
Proof.
  intros Hb. induction l as [| x l IH]; [now intros st |].
  cbn [for_each]. apply keeps_bind; [apply Hb | intros _; exact IH].
Qed.

End Keeps.

(** Goals [keeps f m], by the shape of [m]; what is left says that [f] does
    not see one call or one assignment. *)
Ltac keep :=
  repeat match goal with
    | |- forall _, _ => intro
    | |- keeps _ (ret _) => apply keeps_ret
    | |- keeps _ (raise _) => apply keeps_raise
    | |- keeps _ (lift _) => apply keeps_lift
    | |- keeps _ (get _) => apply keeps_get
    | |- keeps _ (modify _) => apply keeps_modify
    | |- keeps _ (bind _ _) => apply keeps_bind
    | |- keeps _ (try_except _ _) => apply keeps_try_except
    | |- keeps _ (try_except_when _ _ _) => apply keeps_try_except_when
    | |- keeps _ (try_finally _ _) => apply keeps_try_finally
    | |- keeps _ (call _ _) => apply keeps_call
    | |- keeps _ (query _ _) => apply keeps_query
    | |- keeps _ (read _) => apply keeps_read
    | |- keeps _ (for_each _ _) => apply keeps_for_each
    | |- keeps _ (if ?b then _ else _) => destruct b
    | |- keeps _ (match ?x with _ => _ end) => destruct x
    end.

Lemma filter_snoc {A} (p : A -> bool) l c : p c = false -> filter p (l ++ [c]) = filter p l.
Proof. intros Hc. rewrite filter_app. cbn. rewrite Hc. apply app_nil_r. Qed.

(** The side goals of [keep] for the calls that pass a test. *)
Ltac unseen :=
  cbn [calls log set_world set_converted set_errors set_done _HEIF_REGISTERED];
  first [reflexivity | apply filter_snoc; reflexivity].

Lemma process_path_keeps_unlinks bdir total cb src :
  keeps (fun st => filter is_unlink (calls st)) (process_path false bdir total cb src).
Proof.
  unfold process_path, guarded_step, convert_step, report_done,
    _copy_to_backup, _convert_single.
  keep; unseen.
Qed.

(** X7.  Whatever the paths, the platform and the callback do, a batch that
    was not asked to remove the sources never calls [unlink]. *)
Theorem batch_never_unlinks_unasked paths wd bf cb st :
  let st' := snd (convert_heic_batch paths wd bf false cb st) in
  filter is_unlink (calls st') = filter is_unlink (calls st).
Proof.
  cbv zeta. revert st.
  change (keeps (fun st => filter is_unlink (calls st))
                (convert_heic_batch paths wd bf false cb)).
  unfold convert_heic_batch.
  destruct (map Path_ paths) as [| src rest]; [apply keeps_ret |].
  set (l := src :: rest).
  pose proof process_path_keeps_unlinks as Hloop.
  unfold _ensure_heif_registered.
  keep; try apply Hloop; unseen.
Qed.

Lemma process_path_keeps_registration (f : State -> bool * list Call) rs bdir total cb src :
  f = (fun st => (_HEIF_REGISTERED st, filter is_registration (calls st))) ->
  keeps f (process_path rs bdir total cb src).
Proof.
  intros ->.
  unfold process_path, guarded_step, convert_step, remove_step, report_done,
    _copy_to_backup, _convert_single, _remove_source_file.
  keep; cbn [calls log set_world set_converted set_errors set_done _HEIF_REGISTERED];
    first [reflexivity | f_equal; apply filter_snoc; reflexivity].
Qed.

Lemma ensure_heif_registered_when_set st :
  _HEIF_REGISTERED st = true -> _ensure_heif_registered st = (inr tt, st).
Proof. intros H. unfold _ensure_heif_registered, bind, get. now rewrite H. Qed.

Lemma ensure_heif_registered_returns st st1 :
  _ensure_heif_registered st = (inr tt, st1) -> _HEIF_REGISTERED st1 = true.
Proof.
  destruct (_HEIF_REGISTERED st) eqn:Hflag.
  - rewrite ensure_heif_registered_when_set by exact Hflag. now intros [= <-].
  - unfold _ensure_heif_registered, bind, get, try_except_when, call, modify, raise.
    rewrite Hflag.
    destruct (import_pillow_heif (world st)) as [[exc | []] w]; cbn.
    + destruct (is_ImportError exc); discriminate.
    + destruct (register_heif_opener w) as [[exc | []] w']; [discriminate |].
      now intros [= <-].
Qed.

Lemma batch_loop_keeps_registration rs bdir total cb l st :
  let st' := snd (for_each l (process_path rs bdir total cb) st) in
  _HEIF_REGISTERED st' = _HEIF_REGISTERED st /\
  filter is_registration (calls st') = filter is_registration (calls st).
Proof.
  pose proof (keeps_for_each
                (fun st => (_HEIF_REGISTERED st, filter is_registration (calls st)))
                l (process_path rs bdir total cb)
                (fun src => process_path_keeps_registration _ rs bdir total cb src eq_refl)
                st) as H.
  cbv zeta. now injection H.
Qed.

(** X8.  A batch over at least one path that returns leaves
    [_HEIF_REGISTERED] set. *)
Theorem returned_batch_is_registered p paths wd bf rs cb st outcome st' :
  convert_heic_batch (p :: paths) wd bf rs cb st = (inr outcome, st') ->
  _HEIF_REGISTERED st' = true.
Proof.
  intros H. rewrite convert_heic_batch_eq in H. unfold batch_setup, bind in H.
  destruct (_ensure_heif_registered st) as [[exc | []] st0] eqn:He; [discriminate |].
  apply ensure_heif_registered_returns in He.
  destruct (call _ _ st0) as [[exc | u] st1] eqn:Hm; [discriminate |].
  assert (_HEIF_REGISTERED st1 = true) as Hflag.
  { unfold call in Hm. destruct (mkdir _ (world st0)) as [r w].
    injection Hm as _ <-. exact He. }
  cbv zeta in H.
  match type of H with context [for_each ?l ?body ?s] =>
    destruct (batch_loop_keeps_registration rs (truediv (Path_ wd) bf)
                (Z.of_nat (List.length l)) cb l s) as [Hf _];
    destruct (for_each l body s) as [[exc | []] st2]
  end; [discriminate |].
  apply (f_equal snd) in H. cbn [snd] in H, Hf. subst st'.
  rewrite Hf. exact Hflag.
Qed.

(** X9.  Once [_HEIF_REGISTERED] is set, a batch neither imports
    pillow_heif nor calls [register_heif_opener()] again, and leaves the
    flag set, whether it returns or raises. *)
Theorem registered_batch_does_not_register_again paths wd bf rs cb st :
  _HEIF_REGISTERED st = true ->
  let st' := snd (convert_heic_batch paths wd bf rs cb st) in
  _HEIF_REGISTERED st' = true /\
  filter is_registration (calls st') = filter is_registration (calls st).
Proof.
  intros Hflag. destruct paths as [| p paths]; [now split |].
  cbv zeta. rewrite convert_heic_batch_eq. unfold batch_setup, bind.
  rewrite ensure_heif_registered_when_set by exact Hflag.
  unfold call. destruct (mkdir _ (world st)) as [[exc | u] w]; cbn [snd].
  - split; [exact Hflag | apply filter_snoc; reflexivity].
  - cbv zeta.
    match goal with |- context [for_each ?l ?body ?s] =>
      destruct (batch_loop_keeps_registration rs (truediv (Path_ wd) bf)
                  (Z.of_nat (List.length l)) cb l s) as [Hf Hc];
      destruct (for_each l body s) as [[exc | []] st2]
    end; cbn [snd] in *; rewrite Hf, Hc;
      (split; [exact Hflag | apply filter_snoc; reflexivity]).
Qed.

End MoreBatchFacts.

Section MoreBatchOutcomes.

Context {P : Platform}.

Lemma report_done_swallow total callback st :
  report_done total (Some (swallow callback)) st = report_done total (Some callback) st.
Proof.
  unfold report_done, bind, modify, get, read, try_except, try_except_when, call, ret,
    swallow.
  cbn [truthy invoke].
  match goal with |- context [truthy callback ?w] =>
    destruct (truthy callback w) as [exc | []]
  end; [reflexivity | | reflexivity].
  match goal with |- context [invoke callback ?d ?t ?w] =>
    destruct (invoke callback d t w) as [[exc | []] w']
  end; [| reflexivity].
  destruct (is_Exception exc) eqn:E; cbn; now rewrite ?E.
Qed.

Lemma for_each_ext {A} (l : list A) (body1 body2 : A -> M unit) :
  (forall x st, body1 x st = body2 x st) ->
  forall st, for_each l body1 st = for_each l body2 st.
Proof.
  intros Hext. induction l as [| x l IH]; intros st; [reflexivity |].
  cbn [for_each]. unfold bind. rewrite Hext.
  destruct (body2 x st) as [[exc | u] st1]; [reflexivity | apply IH].
Qed.

(** X10.  Whether the progress callback raises an [Exception] makes no
    difference to a batch: with a callback and with the callback that has
    the same truth value and the same effect on the world and returns
    wherever the first one raises an [Exception], the batch gives the same
    outcome and leaves the same state. *)
Theorem callback_exceptions_are_irrelevant paths wd bf rs callback st :
  convert_heic_batch paths wd bf rs (Some (swallow callback)) st =
  convert_heic_batch paths wd bf rs (Some callback) st.
Proof.
  destruct paths as [| p paths]; [reflexivity |].
  rewrite !convert_heic_batch_eq.
  destruct (batch_setup wd bf st) as [[exc | u] st1]; [reflexivity |].
  cbv zeta.
  rewrite (for_each_ext _ _ (process_path rs (truediv (Path_ wd) bf)
                               (Z.of_nat (List.length (map Path_ (p :: paths))))
                               (Some callback))); [reflexivity |].
  intros src st2. unfold process_path, try_finally.
  destruct (guarded_step rs (truediv (Path_ wd) bf) src st2) as [r st3].
  now rewrite report_done_swallow.
Qed.

(** X11.  When the backup of a path raises, the path is neither decoded,
    written nor deleted: the iteration calls the existence test, and the
    copy when that test returned, then the progress callback, and nothing
    else; it appends no result, and the error when what was raised is an
    [Exception]. *)
Theorem failed_backup_prevents_conversion rs bdir total cb src st exc st1 :
  _copy_to_backup src bdir st = (inl exc, st1) ->
  let dst := truediv bdir (name src) in
  let st' := snd (process_path rs bdir total cb src st) in
  calls st' =
  calls st ++
  call_exists dst ::
  match path_exists dst (world st) with
  | inl _ => []
  | inr _ => [call_copy2 src dst]
  end ++ progress_log cb (world st1) (done st + 1) total /\
  converted st' = converted st /\
  errors st' = (if is_Exception exc then errors st ++ [(str src, exn_str exc)] else errors st).
Proof.
  intros H dst st'. subst st'. rewrite process_path_eq. cbn [snd].
  rewrite guarded_step_eq. unfold backup_and_convert, bind. rewrite H.
  assert (calls st1 =
          calls st ++ call_exists dst ::
          match path_exists dst (world st) with
          | inl _ => []
          | inr _ => [call_copy2 src dst]
          end /\ converted st1 = converted st /\ errors st1 = errors st /\
          done st1 = done st)
    as (Hc1 & Hconv1 & Herr1 & Hd1).
  { unfold _copy_to_backup, bind, query, call, ret in H. fold dst in H.
    destruct (path_exists dst (world st)) as [exc' | []].
    - injection H as _ <-. repeat split.
    - discriminate H.
    - cbn [world log] in H. destruct (copy2 src dst (world st)) as [r w].
      injection H as _ <-. cbn. rewrite <- app_assoc. repeat split. }
  destruct (is_Exception exc); cbn [snd];
    match goal with |- context [report_done total cb ?s] =>
      destruct (report_done_effect total cb s) as (_ & _ & Hc & Hconv & Herr)
    end;
    rewrite Hc, Hconv, Herr; cbn [calls done converted errors world set_errors];
    rewrite Hc1, Hconv1, ?Herr1, Hd1, <- app_assoc; cbn [app];
    repeat split.
Qed.

(** X12.  The backup of a path goes by its name alone: after the backup of
    one source returned, the backup of another source of the same name into
    the same directory copies nothing (on a file system where a copy that
    returns leaves its destination in place). *)
Theorem backup_name_collision src1 src2 backup_dir st st1
        (copy2_creates : forall s d w w',
            path_exists d w = inr false ->
            copy2 s d w = (inr tt, w') -> path_exists d w' = inr true) :
  name src2 = name src1 ->
  _copy_to_backup src1 backup_dir st = (inr tt, st1) ->
  _copy_to_backup src2 backup_dir st1 =
  (inr tt, log (call_exists (truediv backup_dir (name src1))) st1).
Proof.
  intros Hname H. set (dst := truediv backup_dir (name src1)).
  assert (path_exists dst (world st1) = inr true) as Hex.
  { unfold _copy_to_backup, bind, query, call, ret in H. fold dst in H.
    destruct (path_exists dst (world st)) as [exc | []] eqn:E.
    - discriminate H.
    - injection H as <-. exact E.
    - cbn [world log] in H.
      destruct (copy2 src1 dst (world st)) as [r w] eqn:Hcopy.
      injection H as -> <-. cbn. eapply copy2_creates; [exact E | exact Hcopy]. }
  unfold _copy_to_backup, bind, query. rewrite Hname. fold dst. now rewrite Hex.
Qed.

Lemma len_nonneg data : 0 <= len data.
Proof. unfold len. lia. Qed.

Lemma convert_single_result src st target quality size st1 :
  _convert_single src st = (inr (target, quality, size), st1) ->
  well_formed_result (Build_ConversionResult (str src) (str target) quality size).
Proof.
  unfold _convert_single, bind, lift, call, ret. intros H.
  destruct (with_suffix src ".jpg") as [exc | t]; [discriminate |].
  destruct (Image_open src (world st)) as [[exc | image] w1]; [discriminate |].
  cbn [world set_world log] in H.
  destruct (convert_RGB image w1) as [[exc | rgb] w2]; [discriminate |].
  destruct (_encode_with_target_size save_jpeg rgb) as [exc | [data q]] eqn:Hs;
    [discriminate |].
  cbn [world set_world log] in H.
  destruct (write_bytes t data w2) as [[exc | u] w3]; [discriminate |].
  injection H as _ <- <- _.
  apply search_result_shape in Hs. destruct Hs as (Hq & Hfit & _).
  unfold well_formed_result. cbn. split; [exact Hq |]. split; [apply len_nonneg | exact Hfit].
Qed.

Lemma process_path_well_formed rs bdir total cb src st :
  Forall well_formed_result (converted st) ->
  Forall well_formed_result (converted (snd (process_path rs bdir total cb src st))).
Proof.
  intros Hwf. pose proof (process_path_outcome rs bdir total cb src st) as Hout.
  unfold iteration_outcome, backup_and_convert, bind in Hout.
  destruct (_copy_to_backup src bdir st) as [[exc | u] st0].
  - destruct Hout as (-> & _). exact Hwf.
  - destruct (_convert_single src st0) as [[exc | [[target quality] size]] st1] eqn:Hc.
    + destruct Hout as (-> & _). exact Hwf.
    + destruct Hout as (-> & _). apply Forall_app. split; [exact Hwf |].
      constructor; [| constructor]. eapply convert_single_result. exact Hc.
Qed.

Lemma for_each_well_formed rs bdir total cb l : forall st,
  Forall well_formed_result (converted st) ->
  Forall well_formed_result
         (converted (snd (for_each l (process_path rs bdir total cb) st))).
Proof.
  induction l as [| src l IH]; intros st Hwf; [exact Hwf |].
  cbn [for_each]. unfold bind.
  pose proof (process_path_well_formed rs bdir total cb src st Hwf) as H.
  destruct (process_path rs bdir total cb src st) as [[exc | u] st1]; cbn [snd] in *;
    [exact H | now apply IH].
Qed.

(** X13.  Every result a batch returns has a quality within
    [QUALITY_MIN .. QUALITY_MAX] and a size that is not negative and is at
    most [TARGET_MAX_BYTES] unless the quality is [QUALITY_MIN]. *)
Theorem batch_results_well_formed p paths wd bf rs cb st cs es st' :
  convert_heic_batch (p :: paths) wd bf rs cb st = (inr (cs, es), st') ->
  Forall well_formed_result cs.
Proof.
  intros H. rewrite convert_heic_batch_eq in H.
  destruct (batch_setup wd bf st) as [[exc | u] st1]; [discriminate |].
  cbv zeta in H.
  match type of H with context [for_each ?l ?body ?s] =>
    pose proof (for_each_well_formed rs (truediv (Path_ wd) bf)
                  (Z.of_nat (List.length l)) cb l s (Forall_nil _)) as Hwf;
    destruct (for_each l body s) as [[exc | []] st2]
  end; [discriminate |].
  cbn [snd] in Hwf. now injection H as <- _ _.
Qed.

Lemma batch_outcome_dispositions p paths wd bf rs cb st cs es st' :
  convert_heic_batch (p :: paths) wd bf rs cb st = (inr (cs, es), st') ->
  dispositions rs (map Path_ (p :: paths)) cs es.
Proof.
  intros H. rewrite convert_heic_batch_eq in H.
  destruct (batch_setup wd bf st) as [[exc | u] st1]; [discriminate |].
  cbv zeta in H.
  match type of H with context [for_each ?l ?body ?s] =>
    pose proof (for_each_dispositions rs (truediv (Path_ wd) bf)
                  (Z.of_nat (List.length l)) cb l s) as Hloop;
    destruct (for_each l body s) as [[exc | []] st2]
  end; [discriminate |].
  destruct (Hloop eq_refl) as (cs' & es' & Hcs & Hes & Hd).
  cbn [snd set_done set_errors set_converted converted errors app] in Hcs, Hes.
  assert (cs = cs' /\ es = es') as [-> ->]
    by (split; [rewrite <- Hcs | rewrite <- Hes]; congruence).
  exact Hd.
Qed.

Lemma dispositions_counts rs l cs es :
  dispositions rs l cs es ->
  (List.length cs <= List.length l)%nat /\ (List.length es <= List.length l)%nat /\
  (List.length l <= List.length cs + List.length es)%nat /\
  (rs = false -> (List.length cs + List.length es = List.length l)%nat).
Proof.
  induction 1 as [| src l cs es msg _ IH | src l cs es target quality size _ IH
                  | src l cs es target quality size msg Hrs _ IH]; cbn [List.length].
  - repeat split; reflexivity.
  - destruct IH as (H1 & H2 & H3 & H4). repeat split; try lia.
    intros Hrs. specialize (H4 Hrs). lia.
  - destruct IH as (H1 & H2 & H3 & H4). repeat split; try lia.
    intros Hrs. specialize (H4 Hrs). lia.
  - destruct IH as (H1 & H2 & H3 & H4). repeat split; try lia.
    intros Hrs'. congruence.
Qed.

(** X14.  A batch over [N] paths that returns gives at most [N] results and
    at most [N] errors, and at least [N] entries in all: no path goes
    unreported.  When it was not asked to remove the sources, results and
    errors together are exactly [N]. *)
Theorem batch_reports_every_path p paths wd bf rs cb st cs es st' :
  convert_heic_batch (p :: paths) wd bf rs cb st = (inr (cs, es), st') ->
  let N := List.length (p :: paths) in
  (List.length cs <= N)%nat /\ (List.length es <= N)%nat /\
  (N <= List.length cs + List.length es)%nat /\
  (rs = false -> (List.length cs + List.length es = N)%nat).
Proof.
  intros H N. apply batch_outcome_dispositions in H.
  apply dispositions_counts in H. rewrite length_map in H. exact H.
Qed.

Lemma dispositions_order rs l cs es :
  dispositions rs l cs es ->
  subseq (map source cs) (map str l) /\ subseq (map fst es) (map str l).
Proof.
  induction 1 as [| src l cs es msg _ [IH1 IH2] | src l cs es target quality size _ [IH1 IH2]
                  | src l cs es target quality size msg Hrs _ [IH1 IH2]]; cbn [map fst source].
  - split; constructor.
  - split; now constructor.
  - split; now constructor.
  - split; now constructor.
Qed.

(** X15.  The results and the errors a batch returns follow the order of
    its paths: the sources of the results, and the paths of the errors, are
    the input paths with some left out. *)
Theorem batch_outcome_in_input_order p paths wd bf rs cb st cs es st' :
  convert_heic_batch (p :: paths) wd bf rs cb st = (inr (cs, es), st') ->
  subseq (map source cs) (map (fun q => str (Path_ q)) (p :: paths)) /\
  subseq (map fst es) (map (fun q => str (Path_ q)) (p :: paths)).
Proof.
  intros H. apply batch_outcome_dispositions in H.
  apply dispositions_order in H. now rewrite map_map in H.
Qed.

(** X16.  [_convert_single] writes the target last.  When it returns, it
    has opened the source, converted the picture and written the target, in
    this order and nothing else; the target is the source with the suffix
    [.jpg] and the size it reports is the length of the bytes it wrote.
    When it raises, it has written nothing, unless it is the write itself
    that raised. *)
Theorem convert_single_writes_last src st :
  let st' := snd (_convert_single src st) in
  match fst (_convert_single src st) with
  | inr (target, quality, size) =>
      with_suffix src ".jpg" = inr target /\
      calls st' =
      calls st ++ [call_Image_open src; call_convert_RGB; call_write_bytes target] /\
      exists data w, write_bytes target data w = (inr tt, world st') /\ size = len data
  | inl exc =>
      filter is_write (calls st') = filter is_write (calls st) \/
      exists target data w,
        with_suffix src ".jpg" = inr target /\
        fst (write_bytes target data w) = inl exc /\
        calls st' =
        calls st ++ [call_Image_open src; call_convert_RGB; call_write_bytes target]
  end.
Proof.
  unfold _convert_single, bind, lift, call, ret.
  destruct (with_suffix src ".jpg") as [exc | t]; [now left |].
  destruct (Image_open src (world st)) as [[exc | image] w1];
    [left; apply filter_snoc; reflexivity |].
  cbn [world set_world log].
  destruct (convert_RGB image w1) as [[exc | rgb] w2];
    [left; cbn; rewrite !filter_snoc by reflexivity; reflexivity |].
  destruct (_encode_with_target_size save_jpeg rgb) as [exc | [data q]];
    [left; cbn; rewrite !filter_snoc by reflexivity; reflexivity |].
  cbn [world set_world log].
  destruct (write_bytes t data w2) as [[exc | []] w3] eqn:Hw; cbn.
  - right. exists t, data, w2. rewrite Hw, <- !app_assoc. repeat split.
  - split; [reflexivity |]. split; [now rewrite <- !app_assoc |].
    exists data, w2. now split.
Qed.

End MoreBatchOutcomes.

(** ** Candidate discovery *)

Section DiscoveryFacts.

Context {P : Platform} {L : Listing}.

Lemma either_exists_raises jpg jpeg w exc :
  either_exists jpg jpeg w = inl exc ->
  path_exists jpg w = inl exc \/
  path_exists jpg w = inr false /\ path_exists jpeg w = inl exc.
Proof.
  unfold either_exists.
  destruct (path_exists jpg w) as [exc' | []]; [now left | discriminate | now right].
Qed.

Lemma scan_entries_filter w entries : forall results r,
  scan_entries entries w results = inr r ->
  r = results ++ map str (filter (unconverted w) entries).
Proof.
  induction entries as [| entry rest IH]; intros results r Hr; cbn [scan_entries] in Hr.
  - injection Hr as <-. cbn. now rewrite app_nil_r.
  - cbn [filter]. unfold unconverted at 1.
    destruct (Path_is_file entry w) as [exc | []]; [discriminate | | now apply IH].
    destruct (is_heic entry); cbn [negb andb] in *; [| now apply IH].
    destruct (with_suffix entry ".jpg") as [exc | jpg]; [discriminate |].
    destruct (with_suffix entry ".jpeg") as [exc | jpeg]; [discriminate |].
    destruct (either_exists jpg jpeg w) as [exc | []]; [discriminate | now apply IH |].
    apply IH in Hr. rewrite Hr, <- app_assoc. reflexivity.
Qed.

Lemma scan_entries_raises w entries : forall results exc,
  scan_entries entries w results = inl exc ->
  exists entry, In entry entries /\ entry_raises w entry exc.
Proof.
  induction entries as [| entry rest IH]; intros results exc Hr; cbn [scan_entries] in Hr;
    [discriminate |].
  assert (forall results, scan_entries rest w results = inl exc ->
            exists e, In e (entry :: rest) /\ entry_raises w e exc)
    as Hrest.
  { intros results' H. apply IH in H. destruct H as (e & Hin & H).
    exists e. split; [now right | exact H]. }
  unfold entry_raises.
  destruct (Path_is_file entry w) as [exc' | []] eqn:Hfile; [| | now apply Hrest in Hr].
  { injection Hr as ->. exists entry. split; [now left |]. now left. }
  destruct (is_heic entry) eqn:Hheic; cbn [negb] in Hr; [| now apply Hrest in Hr].
  destruct (with_suffix entry ".jpg") as [exc' | jpg] eqn:Hjpg.
  { injection Hr as ->. exists entry. split; [now left |]. right. auto. }
  destruct (with_suffix entry ".jpeg") as [exc' | jpeg] eqn:Hjpeg.
  { injection Hr as ->. exists entry. split; [now left |]. right. auto. }
  destruct (either_exists jpg jpeg w) as [exc' | []] eqn:Hex;
    [| now apply Hrest in Hr | now apply Hrest in Hr].
  injection Hr as ->. apply either_exists_raises in Hex.
  exists entry. split; [now left |]. right. repeat split; auto.
  right. right. exists jpg, jpeg. auto.
Qed.

(** X17.  The list [list_heic_to_convert] returns is in ascending order. *)
Theorem list_heic_to_convert_sorted directory w l w' :
  list_heic_to_convert directory w = (inr l, w') ->
  Sorted (fun a b => String.leb a b = true) l.
Proof.
  unfold list_heic_to_convert. intros H.
  destruct (Path_is_dir (Path_ directory) w) as [exc | []]; [discriminate | |].
  - destruct (Path_iterdir (Path_ directory) w) as [[exc | entries] w1]; [discriminate |].
    destruct (scan_entries entries w1 []) as [exc | results]; [discriminate |].
    injection H as <- _. apply StringSort.Sorted_sort.
  - injection H as <- _. constructor.
Qed.

(** X18.  What [list_heic_to_convert] returns.  For a path that is not a
    directory: the empty list, and nothing has been touched.  For a
    directory: the entries that are regular files, have the suffix [.heic]
    or [.heif] in any case, and have no [.jpg] and no [.jpeg] sibling, each
    as often as [iterdir] gave it; the world is the one [iterdir] left. *)
Theorem list_heic_to_convert_lists_unconverted directory w l w' :
  list_heic_to_convert directory w = (inr l, w') ->
  (Path_is_dir (Path_ directory) w = inr false /\ l = [] /\ w' = w) \/
  (Path_is_dir (Path_ directory) w = inr true /\
   exists entries,
     Path_iterdir (Path_ directory) w = (inr entries, w') /\
     Permutation (map str (filter (unconverted w') entries)) l).
Proof.
  unfold list_heic_to_convert. intros H.
  destruct (Path_is_dir (Path_ directory) w) as [exc | []]; [discriminate | |].
  - right. split; [reflexivity |].
    destruct (Path_iterdir (Path_ directory) w) as [[exc | entries] w1]; [discriminate |].
    destruct (scan_entries entries w1 []) as [exc | results] eqn:Hscan; [discriminate |].
    injection H as <- <-. exists entries. split; [reflexivity |].
    apply scan_entries_filter in Hscan. cbn [app] in Hscan. subst results.
    apply StringSort.Permuted_sort.
  - left. injection H as <- <-. now split.
Qed.

(** X19.  [list_heic_to_convert] raises only what [is_dir] raised on the
    directory, what [iterdir] raised on it, or what an entry raised in the
    scan: its [is_file], or, for a regular file with a HEIC suffix, the
    [with_suffix] or the [exists] of a candidate. *)
Theorem list_heic_to_convert_raises directory w exc w' :
  list_heic_to_convert directory w = (inl exc, w') ->
  (Path_is_dir (Path_ directory) w = inl exc /\ w' = w) \/
  (Path_is_dir (Path_ directory) w = inr true /\
   (Path_iterdir (Path_ directory) w = (inl exc, w') \/
    exists entries entry,
      Path_iterdir (Path_ directory) w = (inr entries, w') /\ In entry entries /\
      entry_raises w' entry exc)).
Proof.
  unfold list_heic_to_convert. intros H.
  destruct (Path_is_dir (Path_ directory) w) as [exc' | []]; [| | discriminate].
  { left. now injection H as -> ->. }
  right. split; [reflexivity |].
  destruct (Path_iterdir (Path_ directory) w) as [[exc' | entries] w1].
  - left. now injection H as -> ->.
  - right. destruct (scan_entries entries w1 []) as [exc' | results] eqn:Hscan;
      [| discriminate].
    injection H as -> ->. apply scan_entries_raises in Hscan.
    destruct Hscan as (entry & Hin & Hrest). exists entries, entry. now split.
Qed.

End DiscoveryFacts.

(** ** The extras on the platform in memory *)

Import MemDir.

(** The batch of [batch_on_disk_ok], which returns. *)
Ltac batch_on_disk_ok_returns H :=
  destruct (convert_heic_batch ["work/a.heic"; "work/b.heic"; "work/c.heic"] "work"
              "kopia heic" true (Some failing_sink) (fresh disk_ok))
    as [[?exc | [?cs ?es]] ?st'] eqn:H;
  [ exfalso; apply (f_equal (fun out => raised (fst out))) in H;
    vm_compute in H; discriminate H | ].

Lemma returned_batch_is_registered_witness :
  exists outcome st',
    convert_heic_batch ["work/a.heic"; "work/b.heic"; "work/c.heic"] "work" "kopia heic"
                       true (Some failing_sink) (fresh disk_ok) = (inr outcome, st') /\
    _HEIF_REGISTERED st' = true.
Proof.
  batch_on_disk_ok_returns H. exists (cs, es), st'. split; [reflexivity |].
  exact (returned_batch_is_registered _ _ _ _ _ _ _ _ _ H).
Defined.

Lemma registered_batch_does_not_register_again_witness :
  let st := set_HEIF_REGISTERED true (fresh disk_ok) in
  let st' := snd (convert_heic_batch ["work/a.heic"] "work" "kopia heic" false None st) in
  _HEIF_REGISTERED st' = true /\
  filter is_registration (calls st') = filter is_registration (calls st).
Proof.
  intros st.
  exact (registered_batch_does_not_register_again
           ["work/a.heic"] "work" "kopia heic" false None st eq_refl).
Defined.

Lemma failed_backup_prevents_conversion_witness :
  let src : Path := "work/missing.heic" in
  let bdir : Path := "work/kopia heic" in
  let dst := truediv bdir (name src) in
  let st := fresh disk_ok in
  exists exc st1,
    _copy_to_backup src bdir st = (inl exc, st1) /\
    calls (snd (process_path true bdir 1 None src st)) =
    [call_exists dst; call_copy2 src dst].
Proof.
  intros src bdir dst st.
  destruct (_copy_to_backup src bdir st) as [[exc | u] st1] eqn:H.
  - exists exc, st1. split; [reflexivity |].
    exact (proj1 (failed_backup_prevents_conversion true bdir 1 None src st exc st1 H)).
  - exfalso. apply (f_equal (fun out => raised (fst out))) in H.
    vm_compute in H. discriminate H.
Defined.

(** When it is the existence test of the backup that raises, nothing is
    copied. *)
Example failed_stat_prevents_copy :
  let st := fresh disk_stat_fails in
  let src : Path := "other/a.heic" in
  let st' := snd (process_path false "work" 1 None src st) in
  calls st' = [call_exists "work/a.heic"] /\
  errors st' = [("other/a.heic", "Input/output error: work/a.heic")].
Proof. vm_compute. split; reflexivity. Qed.

Lemma backup_name_collision_witness :
  let src1 : Path := "work/a.heic" in
  let src2 : Path := "other/a.heic" in
  let bdir : Path := "work/kopia heic" in
  exists st1,
    _copy_to_backup src1 bdir (fresh disk_ok) = (inr tt, st1) /\
    _copy_to_backup src2 bdir st1 =
    (inr tt, log (call_exists (truediv bdir (name src1))) st1).
Proof.
  intros src1 src2 bdir.
  destruct (_copy_to_backup src1 bdir (fresh disk_ok)) as [[exc | []] st1] eqn:H.
  - exfalso. apply (f_equal (fun out => raised (fst out))) in H.
    vm_compute in H. discriminate H.
  - exists st1. split; [reflexivity |].
    exact (backup_name_collision src1 src2 bdir _ st1 disk_copy2_creates eq_refl H).
Defined.

Lemma batch_results_well_formed_witness :
  exists cs es st',
    convert_heic_batch ["work/a.heic"; "work/b.heic"; "work/c.heic"] "work" "kopia heic"
                       true (Some failing_sink) (fresh disk_ok) = (inr (cs, es), st') /\
    Forall well_formed_result cs.
Proof.
  batch_on_disk_ok_returns H. exists cs, es, st'. split; [reflexivity |].
  exact (batch_results_well_formed _ _ _ _ _ _ _ _ _ _ H).
Defined.

Lemma batch_reports_every_path_witness :
  exists cs es st',
    convert_heic_batch ["work/a.heic"; "work/b.heic"; "work/c.heic"] "work" "kopia heic"
                       true (Some failing_sink) (fresh disk_ok) = (inr (cs, es), st') /\
    (List.length cs <= 3)%nat /\ (List.length es <= 3)%nat /\
    (3 <= List.length cs + List.length es)%nat.
Proof.
  batch_on_disk_ok_returns H. exists cs, es, st'. split; [reflexivity |].
  destruct (batch_reports_every_path _ _ _ _ _ _ _ _ _ _ H) as (H1 & H2 & H3 & _).
  split; [exact H1 | split; [exact H2 | exact H3]].
Defined.

Lemma batch_outcome_in_input_order_witness :
  exists cs es st',
    convert_heic_batch ["work/a.heic"; "work/b.heic"; "work/c.heic"] "work" "kopia heic"
                       true (Some failing_sink) (fresh disk_ok) = (inr (cs, es), st') /\
    subseq (map source cs) ["work/a.heic"; "work/b.heic"; "work/c.heic"] /\
    subseq (map fst es) ["work/a.heic"; "work/b.heic"; "work/c.heic"].
Proof.
  batch_on_disk_ok_returns H. exists cs, es, st'. split; [reflexivity |].
  exact (batch_outcome_in_input_order _ _ _ _ _ _ _ _ _ _ H).
Defined.

(** The directory [work] of [disk_mixed]: [a.heic] has its [a.jpg],
    [notes.txt] is no picture and [old.heic] is a directory. *)
Example list_heic_on_disk_mixed :
  list_heic_to_convert (L := listing) "work" disk_mixed = (inr ["work/b.heif"; "work/z.HEIC"], disk_mixed).
Proof. vm_compute. reflexivity. Qed.

Lemma list_heic_to_convert_sorted_witness :
  Sorted (fun a b => String.leb a b = true) ["work/b.heif"; "work/z.HEIC"].
Proof.
  apply (list_heic_to_convert_sorted (P := platform) (L := listing)
           "work" disk_mixed _ disk_mixed).
  vm_compute. reflexivity.
Defined.

Lemma list_heic_to_convert_lists_unconverted_witness :
  exists entries,
    Path_iterdir (Listing := listing) (Path_ "work") disk_mixed =
    (inr entries, disk_mixed) /\
    Permutation (map str (filter (unconverted disk_mixed) entries))
                ["work/b.heif"; "work/z.HEIC"].
Proof.
  assert (list_heic_to_convert (L := listing) "work" disk_mixed =
          (inr ["work/b.heif"; "work/z.HEIC"], disk_mixed)) as H
    by (vm_compute; reflexivity).
  destruct (list_heic_to_convert_lists_unconverted _ _ _ _ H) as [(Hdir & _) | (_ & Hl)].
  - vm_compute in Hdir. discriminate Hdir.
  - exact Hl.
Defined.

Lemma list_heic_to_convert_raises_witness :
  Path_iterdir (Listing := unreadable) (Path_ "work") disk_mixed =
  (inl (Exception OSError "Permission denied: work"), disk_mixed).
Proof.
  assert (list_heic_to_convert (L := unreadable) "work" disk_mixed =
          (inl (Exception OSError "Permission denied: work"), disk_mixed)) as H
    by (vm_compute; reflexivity).
  destruct (list_heic_to_convert_raises (L := unreadable) _ _ _ _ H)
    as [(Hdir & _) | (_ & [Hiter | (entries & entry & Hiter & _)])].
  - vm_compute in Hdir. discriminate Hdir.
  - exact Hiter.
  - vm_compute in Hiter. discriminate Hiter.
Defined.

(** A directory on which [stat] fails: the listing raises at [is_dir]; a
    picture on which it fails: the listing raises at [is_file]. *)
Example list_heic_raises_at_stat :
  let d := set_dirs (dirs disk_mixed)
                    {| files := files disk_mixed; dirs := []; protected := [];
                       stat_fails := ["work"]; pillow_heif_installed := true |} in
  list_heic_to_convert (L := listing) "work" d =
  (inl (Exception OSError "Input/output error: work"), d) /\
  fst (list_heic_to_convert (L := listing) "work"
         {| files := files disk_mixed; dirs := dirs disk_mixed; protected := [];
            stat_fails := ["work/b.heif"]; pillow_heif_installed := true |}) =
  inl (Exception OSError "Input/output error: work/b.heif").
Proof. vm_compute. split; reflexivity. Qed.
